(** * Request normalisation of the chat-completions handler

    A shallow embedding of [src/routes/chat-completions/handler.ts] and of
    the context-truncation module it imports: tool-id sanitiser, tool-call
    sequence repairer, model capability table, token estimator, tool-result
    compression and the budget fitter.

    JavaScript strings are sequences of UTF-16 code units; [length],
    [slice], [startsWith], [includes] and the regular expression of the
    sanitiser all work on code units, so a string is a [list N] here.
    Numbers that the code keeps integral are [Z]; where the code divides
    token counts or multiplies by a decimal fraction ([0.15], [0.9],
    [0.6], [0.3]) the model computes with binary64 floats, as the
    JavaScript engine does. *)

From Stdlib Require Import ZArith List String Ascii Floats Uint63 DecimalString.
From stdpp Require Import gmap list sorting.
Import ListNotations.
Set Warnings "-inexact-float,-abstract-large-number".
Local Open Scope Z_scope.

(** ** Strings *)

Module JsString.

Abbreviation jsstring := (list N).

(** An ASCII literal as code units. *)
Definition js (s : string) : jsstring :=
  List.map N_of_ascii (list_ascii_of_string s).

(** [Number.prototype.toString] on an integer. *)
Definition ofNumber (z : Z) : jsstring :=
  js (NilZero.string_of_int (Z.to_int z)).

(** Truthiness of a string: the empty string is falsy. *)
Definition truthy (s : jsstring) : bool :=
  match s with [] => false | _ :: _ => true end.

(** [s.startsWith(p)] *)
Fixpoint startsWith (s p : jsstring) : bool :=
  match p, s with
  | [], _ => true
  | _ :: _, [] => false
  | c :: p', d :: s' => (c =? d)%N && startsWith s' p'
  end.

(** [s.includes(p)] *)
Fixpoint includes (s p : jsstring) : bool :=
  startsWith s p ||
  match s with
  | [] => false
  | _ :: s' => includes s' p
  end.

(** [s.slice(start, end)]; [stop = None] is the one-argument call.
    A negative index counts from the end, and [-0] is [0]. *)
Definition sliceIndex (len i : Z) : Z :=
  if i <? 0 then Z.max (len + i) 0 else Z.min i len.

Definition slice (s : jsstring) (start : Z) (stop : option Z) : jsstring :=
  let len := Z.of_nat (length s) in
  let from := sliceIndex len start in
  let to := match stop with Some e => sliceIndex len e | None => len end in
  take (Z.to_nat (to - from)) (drop (Z.to_nat from) s).

Definition hexDigit (n : N) : N :=
  if (n <? 10)%N then (48 + n)%N else (87 + n)%N.

(** The four lower-case hex digits of a code unit. *)
Definition hex4 (c : N) : jsstring :=
  [ hexDigit (N.shiftr c 12 mod 16); hexDigit (N.shiftr c 8 mod 16);
    hexDigit (N.shiftr c 4 mod 16); hexDigit (c mod 16) ]%N.

Definition isHighSurrogate (c : N) : bool := ((55296 <=? c) && (c <=? 56319))%N.
Definition isLowSurrogate (c : N) : bool := ((56320 <=? c) && (c <=? 57343))%N.

(** The body of a JSON string literal as [JSON.stringify] writes it:
    quote, backslash and control characters escaped, a surrogate that is
    not part of a pair written as a [\u] escape. *)
Fixpoint jsonEscape (s : jsstring) : jsstring :=
  match s with
  | [] => []
  | c :: rest =>
      if (c =? 34)%N then [92; 34]%N ++ jsonEscape rest
      else if (c =? 92)%N then [92; 92]%N ++ jsonEscape rest
      else if (c =? 8)%N then [92; 98]%N ++ jsonEscape rest
      else if (c =? 9)%N then [92; 116]%N ++ jsonEscape rest
      else if (c =? 10)%N then [92; 110]%N ++ jsonEscape rest
      else if (c =? 12)%N then [92; 102]%N ++ jsonEscape rest
      else if (c =? 13)%N then [92; 114]%N ++ jsonEscape rest
      else if (c <? 32)%N then [92; 117]%N ++ hex4 c ++ jsonEscape rest
      else if isHighSurrogate c then
        match rest with
        | d :: rest' =>
            if isLowSurrogate d then c :: d :: jsonEscape rest'
            else [92; 117]%N ++ hex4 c ++ jsonEscape rest
        | [] => [92; 117]%N ++ hex4 c
        end
      else if isLowSurrogate c then [92; 117]%N ++ hex4 c ++ jsonEscape rest
      else c :: jsonEscape rest
  end.

(** A quoted JSON string. *)
Definition jsonString (s : jsstring) : jsstring :=
  [34%N] ++ jsonEscape s ++ [34%N].

End JsString.
Import JsString.

(** ** Data model *)

(** Modelled from the spec: the [Message] type of
    [~/services/copilot/create-chat-completions], which the handler only
    imports. Section 3 of the specification gives the four roles, content
    that is text or a sequence of text and image-reference parts,
    [tool_calls] as ordered (id, function name, arguments) triples and
    [tool_call_id]. The code reads [tc.function?.name], so the function of
    a call is optional, and it tests [tool_calls] and [tool_call_id] for
    presence, so both are optional. [Null] stands for content that is
    neither a string nor an array. *)
Inductive Role := system | user | assistant | tool.

Record FunctionCall := { fn_name : jsstring; fn_arguments : jsstring }.

Record ToolCall := { tc_id : jsstring; tc_function : option FunctionCall }.

Inductive ContentPart :=
| TextPart (text : jsstring)
| ImagePart (image_url : jsstring).

Inductive Content :=
| Text (s : jsstring)
| Parts (ps : list ContentPart)
| Null.

Record Message := {
  role : Role;
  content : Content;
  tool_calls : option (list ToolCall);
  tool_call_id : option jsstring
}.

#[global] Instance Role_eq_dec : EqDecision Role.
Proof. solve_decision. Defined.
#[global] Instance FunctionCall_eq_dec : EqDecision FunctionCall.
Proof. solve_decision. Defined.
#[global] Instance ToolCall_eq_dec : EqDecision ToolCall.
Proof. solve_decision. Defined.
#[global] Instance ContentPart_eq_dec : EqDecision ContentPart.
Proof. solve_decision. Defined.
#[global] Instance Content_eq_dec : EqDecision Content.
Proof. solve_decision. Defined.
#[global] Instance Message_eq_dec : EqDecision Message.
Proof. solve_decision. Defined.

Definition isTool (m : Message) : bool := bool_decide (role m = tool).

(** [msg.role === "tool" && msg.tool_call_id]: the id when the test passes. *)
Definition toolResponseId (m : Message) : option jsstring :=
  match role m, tool_call_id m with
  | tool, Some i => if truthy i then Some i else None
  | _, _ => None
  end.

(** [msg.role === "assistant" && msg.tool_calls && msg.tool_calls.length > 0]:
    the calls when the test passes. *)
Definition assistantCalls (m : Message) : option (list ToolCall) :=
  match role m, tool_calls m with
  | assistant, Some (tc :: tcs) => Some (tc :: tcs)
  | _, _ => None
  end.

(** ** Tool identifier sanitiser *)

(** The fallback id reads the clock and the random generator. Both are
    inputs of the model: [dateNow n] is what the [n]-th fallback reads
    from [Date.now()] and [randomSuffix n] what it gets from
    [Math.random().toString(36).slice(2, 9)]. The state threaded through
    the sanitiser is the number of fallbacks generated so far. *)
Module Gen.

Definition M (A : Type) : Type := nat -> A * nat.

Definition ret {A} (a : A) : M A := fun n => (a, n).

Definition bind {A B} (m : M A) (k : A -> M B) : M B :=
  fun n => let (a, n') := m n in k a n'.

Fixpoint mapM {A B} (f : A -> M B) (l : list A) : M (list B) :=
  match l with
  | [] => ret []
  | a :: l' => bind (f a) (fun b => bind (mapM f l') (fun bs => ret (b :: bs)))
  end.

End Gen.

Notation "'let*' x ':=' m 'in' k" := (Gen.bind m (fun x => k))
  (at level 10, x name, m at level 100, k at level 200).

Section Sanitizer.

Variable dateNow : nat -> Z.
Variable randomSuffix : nat -> jsstring.

(** [`tool_${Date.now()}_${Math.random().toString(36).slice(2, 9)}`] *)
Definition fallbackId : Gen.M jsstring :=
  fun n => (js "tool_" ++ ofNumber (dateNow n) ++ js "_" ++ randomSuffix n, S n).

(** The characters which [/[^\w-]/g] leaves in place: [A-Za-z0-9_] and [-]. *)
Definition isIdChar (c : N) : bool :=
  (((65 <=? c) && (c <=? 90)) || ((97 <=? c) && (c <=? 122))
   || ((48 <=? c) && (c <=? 57)) || (c =? 95) || (c =? 45))%N.

Definition sanitizeToolId (id : jsstring) : Gen.M jsstring :=
  if negb (truthy id) then fallbackId
  else
    let sanitized := List.filter isIdChar id in
    if negb (truthy sanitized) then fallbackId
    else Gen.ret sanitized.

Definition sanitizeToolCall (tc : ToolCall) : Gen.M ToolCall :=
  let* i := sanitizeToolId (tc_id tc) in
  Gen.ret {| tc_id := i; tc_function := tc_function tc |}.

Definition sanitizeMessage (msg : Message) : Gen.M Message :=
  let* tid := match toolResponseId msg with
              | Some i => let* i' := sanitizeToolId i in Gen.ret (Some i')
              | None => Gen.ret (tool_call_id msg)
              end in
  let* tcs := match assistantCalls msg with
              | Some cs => let* cs' := Gen.mapM sanitizeToolCall cs in Gen.ret (Some cs')
              | None => Gen.ret (tool_calls msg)
              end in
  Gen.ret {| role := role msg; content := content msg;
             tool_calls := tcs; tool_call_id := tid |}.

Definition sanitizeToolIdsInMessages (messages : list Message)
  : Gen.M (list Message) :=
  Gen.mapM sanitizeMessage messages.

End Sanitizer.

(** ** Tool-call sequence repairer *)

(** [tc.function?.name || "unknown"] *)
Definition toolName (tc : ToolCall) : jsstring :=
  match tc_function tc with
  | Some f => if truthy (fn_name f) then fn_name f else js "unknown"
  | None => js "unknown"
  end.

(** The placeholder for a call without a response; its content is
    [JSON.stringify({status, reason, tool_name})]. *)
Definition placeholderContent (tc : ToolCall) : jsstring :=
  js "{" ++ jsonString (js "status") ++ js ":" ++ jsonString (js "skipped")
  ++ js "," ++ jsonString (js "reason") ++ js ":"
  ++ jsonString (js "Tool execution was interrupted or skipped")
  ++ js "," ++ jsonString (js "tool_name") ++ js ":"
  ++ jsonString (toolName tc) ++ js "}".

Definition placeholderResponse (tc : ToolCall) : Message :=
  {| role := tool; content := Text (placeholderContent tc);
     tool_calls := None; tool_call_id := Some (tc_id tc) |}.

(** First loop: the map from [tool_call_id] to response; a later response
    with the same id overwrites an earlier one. *)
Definition recordResponse (m : gmap jsstring Message) (msg : Message)
  : gmap jsstring Message :=
  match toolResponseId msg with
  | Some i => <[i := msg]> m
  | None => m
  end.

Definition toolResponseMap (messages : list Message) : gmap jsstring Message :=
  fold_left recordResponse messages ∅.

(** The inner loop over the calls of one assistant message. *)
Definition pushResponses (responses : gmap jsstring Message)
    (fixedMessages : list Message) (calls : list ToolCall) : list Message :=
  fold_left
    (fun fixed tc =>
       match responses !! tc_id tc with
       | Some toolResponse => fixed ++ [toolResponse]
       | None => fixed ++ [placeholderResponse tc]
       end)
    calls fixedMessages.

(** The rebuilding loop. The sets and counters the source keeps next to it
    feed log lines only. *)
Definition rebuild (responses : gmap jsstring Message)
    (messages : list Message) (fixedMessages : list Message) : list Message :=
  fold_left
    (fun fixed msg =>
       if isTool msg then fixed
       else
         let fixed := fixed ++ [msg] in
         match assistantCalls msg with
         | Some calls => pushResponses responses fixed calls
         | None => fixed
         end)
    messages fixedMessages.

Definition fixToolCallsMessages (messages : list Message) : list Message :=
  rebuild (toolResponseMap messages) messages [].

(** ** Model capability table *)

(** The own properties of [MODEL_CONTEXT_LIMITS], in insertion order,
    which is the order [Object.entries] walks them in. *)
Definition MODEL_CONTEXT_LIMITS : list (jsstring * Z) :=
  [ (js "gpt-4", 8192); (js "gpt-4-32k", 32768); (js "gpt-4-turbo", 128000);
    (js "gpt-4-turbo-preview", 128000); (js "gpt-4o", 128000);
    (js "gpt-4o-mini", 128000); (js "gpt-4.1", 1000000);
    (js "gpt-4.1-mini", 1000000); (js "gpt-4.5-preview", 128000);
    (js "gpt-5", 128000); (js "gpt-5.2", 128000); (js "gpt-5.2-codex", 128000);
    (js "o1", 200000); (js "o1-mini", 128000); (js "o1-preview", 128000);
    (js "o1-pro", 200000); (js "o3", 200000); (js "o3-mini", 128000);
    (js "o3-pro", 200000); (js "o4-mini", 200000);
    (js "claude-3-opus", 200000); (js "claude-3-sonnet", 200000);
    (js "claude-3-haiku", 200000); (js "claude-3.5-sonnet", 200000);
    (js "claude-3.5-haiku", 200000); (js "claude-sonnet-4", 200000);
    (js "claude-opus-4", 200000); (js "claude-haiku-4", 200000);
    (js "gemini-2.0-flash", 1000000); (js "gemini-2.5-pro", 1000000);
    (js "default", 128000) ].

(** The table is an object literal, so [model in MODEL_CONTEXT_LIMITS]
    also holds for the property names it inherits from [Object.prototype]. *)
Definition objectPrototypeKeys : list jsstring :=
  [ js "constructor"; js "__defineGetter__"; js "__defineSetter__";
    js "hasOwnProperty"; js "__lookupGetter__"; js "__lookupSetter__";
    js "isPrototypeOf"; js "propertyIsEnumerable"; js "toString";
    js "valueOf"; js "__proto__"; js "toLocaleString" ].

(** What reading a property of the table gives: a number for an own
    property, a function or object for an inherited one. *)
Inductive TableValue :=
| Limit (n : Z)
| Inherited.

Definition ownProperty (key : jsstring) : option Z :=
  snd <$> List.find (fun e => bool_decide (e.1 = key)) MODEL_CONTEXT_LIMITS.

(** The prefix loop: the first entry, in table order, other than
    [default], whose key the model name starts with. *)
Definition firstPrefixEntry (model : jsstring) : option (jsstring * Z) :=
  List.find
    (fun e => negb (bool_decide (e.1 = js "default")) && startsWith model e.1)
    MODEL_CONTEXT_LIMITS.

(** The family patterns tried after the table. *)
Definition familyLimit (model : jsstring) : Z :=
  if includes model (js "claude") then 200000
  else if includes model (js "gemini") then 1000000
  else if includes model (js "gpt-4") then 128000
  else if includes model (js "gpt-5") then 128000
  else if startsWith model (js "o1") || startsWith model (js "o3")
          || startsWith model (js "o4") then 200000
  else 128000.

Definition getModelContextLimit (model : jsstring) : TableValue :=
  match ownProperty model with
  | Some limit => Limit limit
  | None =>
      if bool_decide (model ∈ objectPrototypeKeys) then Inherited
      else
        match firstPrefixEntry model with
        | Some (_, limit) => Limit limit
        | None => Limit (familyLimit model)
        end
  end.

(** ** Numbers *)

(** An integer as a binary64 number; exact below [2^53], which every
    length and token count of a JavaScript program is. *)
Definition num (z : Z) : float := PrimFloat.of_uint63 (Uint63.of_Z z).

(** [Math.floor] of a finite number. The callers divide by a positive
    token count and multiply finite values, so no infinity or NaN reaches
    it. *)
Definition jsFloor (f : float) : Z :=
  match Prim2SF f with
  | S754_finite s m e => Z.shiftl (if s then Zneg m else Zpos m) e
  | _ => 0
  end.

(** A token budget. Arithmetic on an inherited table value gives [NaN],
    and every comparison with [NaN] is false. *)
Inductive Target :=
| Tokens (t : Z)
| NaN.

(** [x <= target] *)
Definition leTarget (x : Z) (target : Target) : bool :=
  match target with Tokens t => x <=? t | NaN => false end.

(** [x > target] *)
Definition gtTarget (x : Z) (target : Target) : bool :=
  match target with Tokens t => t <? x | NaN => false end.

(** [target - x] *)
Definition subTarget (target : Target) (x : Z) : Target :=
  match target with Tokens t => Tokens (t - x) | NaN => NaN end.

(** [getDynamicTargetLimit(model)] with the default [reserveRatio = 0.15]. *)
Definition getDynamicTargetLimit (model : jsstring) : Target :=
  match getModelContextLimit model with
  | Limit contextLimit =>
      let reserved := Z.max (jsFloor (num contextLimit * 0.15)%float) 4096 in
      Tokens (contextLimit - reserved)
  | Inherited => NaN
  end.

(** ** Classification and token estimate *)

Module Category.
Inductive MessageCategory := system | tool_context | regular.
End Category.
Export Category (MessageCategory, tool_context, regular).

#[global] Instance MessageCategory_eq_dec : EqDecision MessageCategory.
Proof. solve_decision. Defined.

Definition categorizeMessage (message : Message) : MessageCategory :=
  match role message with
  | system => Category.system
  | tool => tool_context
  | assistant =>
      match tool_calls message with
      | Some (_ :: _) => tool_context
      | _ => regular
      end
  | user => regular
  end.

(** The text the estimator collects from the content; an image part adds
    [" ".repeat(128 * 4)]. *)
Definition contentText (c : Content) : jsstring :=
  match c with
  | Text s => s
  | Parts ps =>
      fold_left
        (fun text part =>
           match part with
           | TextPart t => text ++ t
           | ImagePart _ => text ++ repeat 32%N (128 * 4)%nat
           end)
        ps []
  | Null => []
  end.

(** [toolCall.function?.name || ""] followed by
    [toolCall.function?.arguments || ""]. *)
Definition toolCallText (toolCall : ToolCall) : jsstring :=
  match tc_function toolCall with
  | Some f => fn_name f ++ fn_arguments f
  | None => []
  end.

Definition messageText (message : Message) : jsstring :=
  let text := contentText (content message) in
  let text :=
    match role message, tool_calls message with
    | assistant, Some calls =>
        fold_left (fun text toolCall => text ++ toolCallText toolCall) calls text
    | _, _ => text
    end in
  match toolResponseId message with
  | Some i => text ++ i
  | None => text
  end.

(** [Math.ceil(text.length / 4) + 4]; the length is a non-negative
    integer, so the ceiling of the quotient is [(length + 3) / 4]. *)
Definition estimateMessageTokens (message : Message) : Z :=
  (Z.of_nat (length (messageText message)) + 3) / 4 + 4.

(** [messages.reduce((sum, msg) => sum + estimateMessageTokens(msg), 0)] *)
Definition getTotalTokens (messages : list Message) : Z :=
  fold_left (fun sum msg => sum + estimateMessageTokens msg) messages 0.

(** The loop of [needsTruncation] from a running total. *)
Fixpoint needsTruncationFrom (target : Target) (totalTokens : Z)
    (messages : list Message) : bool :=
  match messages with
  | [] => false
  | msg :: rest =>
      let totalTokens := totalTokens + estimateMessageTokens msg in
      if gtTarget totalTokens target then true
      else needsTruncationFrom target totalTokens rest
  end.

Definition needsTruncation (messages : list Message) (model : jsstring) : bool :=
  needsTruncationFrom (getDynamicTargetLimit model) 0 messages.

(** ** Compression of a tool result *)

(** ["\n\n... [内容已截断，中间省略 "] *)
Definition elisionPrefix : jsstring :=
  [10; 10]%N ++ js "... ["
  ++ [20869; 23481; 24050; 25130; 26029; 65292; 20013; 38388; 30465; 30053]%N
  ++ js " ".

(** [" 字符] ...\n\n"] *)
Definition elisionSuffix : jsstring :=
  js " " ++ [23383; 31526]%N ++ js "] ..." ++ [10; 10]%N.

Definition compressToolResult (message : Message) (maxTokens : Z) : Message :=
  let content := match content message with Text s => s | _ => [] end in
  let currentTokens := estimateMessageTokens message in
  if currentTokens <=? maxTokens then message
  else
    let ratio := (num maxTokens / num currentTokens)%float in
    let targetLength :=
      jsFloor (num (Z.of_nat (length content)) * ratio * 0.9)%float in
    let headLength := jsFloor (num targetLength * 0.6)%float in
    let tailLength := jsFloor (num targetLength * 0.3)%float in
    let truncatedContent :=
      slice content 0 (Some headLength)
      ++ elisionPrefix
      ++ ofNumber (Z.of_nat (length content) - headLength - tailLength)
      ++ elisionSuffix
      ++ slice content (- tailLength) None in
    {| role := role message; content := Text truncatedContent;
       tool_calls := tool_calls message; tool_call_id := tool_call_id message |}.

(** ** Budget fitter *)

Module Item.
Record t := { msg : Message; category : MessageCategory; tokens : Z; index : nat }.
End Item.

Module TruncationResult.
Record t := {
  messages : list Message;
  originalTokens : Z;
  truncatedTokens : Z;
  removedCount : nat;
  compressedCount : nat
}.
End TruncationResult.

(** The items of the classification loop; [messageTokens[i]] is the
    estimate of [messages[i]]. *)
Definition categorize (messages : list Message) : list Item.t :=
  imap
    (fun i m =>
       {| Item.msg := m; Item.category := categorizeMessage m;
          Item.tokens := estimateMessageTokens m; Item.index := i |})
    messages.

(** One call of the callback of the compression [map]. *)
Definition compressItem (item : Item.t) : Item.t * bool :=
  if isTool (Item.msg item) && (8000 <? Item.tokens item) then
    let compressedMsg := compressToolResult (Item.msg item) 8000 in
    let newTokens := estimateMessageTokens compressedMsg in
    if newTokens <? Item.tokens item then
      ({| Item.msg := compressedMsg; Item.category := Item.category item;
          Item.tokens := newTokens; Item.index := Item.index item |}, true)
    else (item, false)
  else (item, false).

(** The compression pass with its counter. *)
Definition compressPass (categorized : list Item.t) : list Item.t * nat :=
  fold_left
    (fun st item =>
       let '(out, compressedCount) := st in
       let (item', counted) := compressItem item in
       (out ++ [item'], if counted then S compressedCount else compressedCount))
    categorized ([], 0%nat).

Definition sumTokens (items : list Item.t) : Z :=
  fold_left (fun sum item => sum + Item.tokens item) items 0.

(** System messages enter the must-keep set. *)
Definition keepSystem (compressed : list Item.t) (mustKeep : gset nat) : gset nat :=
  fold_left
    (fun keep item =>
       if bool_decide (Item.category item = Category.system)
       then {[Item.index item]} ∪ keep else keep)
    compressed mustKeep.

(** [for (i = n - 1; i >= 0; i--)] looking for the last tool-context item;
    [None] is the initial [-1]. *)
Fixpoint lastToolIndexFrom (compressed : list Item.t) (n : nat) : option nat :=
  match n with
  | O => None
  | S i =>
      match compressed !! i with
      | Some item =>
          if bool_decide (Item.category item = tool_context) then Some i
          else lastToolIndexFrom compressed i
      | None => lastToolIndexFrom compressed i
      end
  end.

(** [for (i = n - 1; i >= 0; i--)] of the chain scan. *)
Fixpoint chainFrom (compressed : list Item.t) (lastToolIndex : nat) (n : nat)
    (mustKeep : gset nat) : gset nat :=
  match n with
  | O => mustKeep
  | S i =>
      match compressed !! i with
      | Some item =>
          match Item.category item with
          | tool_context =>
              chainFrom compressed lastToolIndex i ({[Item.index item]} ∪ mustKeep)
          | regular =>
              if (i <? lastToolIndex)%nat then mustKeep
              else chainFrom compressed lastToolIndex i mustKeep
          | Category.system => chainFrom compressed lastToolIndex i mustKeep
          end
      | None => mustKeep
      end
  end.

(** The last round of tool calls enters the must-keep set. *)
Definition keepToolChain (compressed : list Item.t) (mustKeep : gset nat) : gset nat :=
  match lastToolIndexFrom compressed (length compressed) with
  | Some lastToolIndex =>
      chainFrom compressed lastToolIndex (S lastToolIndex) mustKeep
  | None => mustKeep
  end.

(** [for (i = n - 1; i >= 0; i--)] adding the last user message. *)
Fixpoint keepLastUserFrom (compressed : list Item.t) (n : nat)
    (mustKeep : gset nat) : gset nat :=
  match n with
  | O => mustKeep
  | S i =>
      match compressed !! i with
      | Some item =>
          if bool_decide (role (Item.msg item) = user)
          then {[Item.index item]} ∪ mustKeep
          else keepLastUserFrom compressed i mustKeep
      | None => mustKeep
      end
  end.

Definition mustKeepSet (compressed : list Item.t) : gset nat :=
  let mustKeep := keepSystem compressed ∅ in
  let mustKeep := keepToolChain compressed mustKeep in
  keepLastUserFrom compressed (length compressed) mustKeep.

Definition has (s : gset nat) (i : nat) : bool := bool_decide (i ∈ s).

Definition mustKeepTokensOf (compressed : list Item.t) (mustKeep : gset nat) : Z :=
  fold_left
    (fun sum item => if has mustKeep (Item.index item) then sum + Item.tokens item else sum)
    compressed 0.

(** The regular messages outside the must-keep set, walked from the most
    recent one; the state is [usedTokens] and [keepRegular]. *)
Definition keepRegularSet (compressed : list Item.t) (mustKeep : gset nat)
    (availableTokens : Target) : gset nat :=
  let regularMessages :=
    List.filter
      (fun item => negb (has mustKeep (Item.index item))
                   && bool_decide (Item.category item = regular))
      compressed in
  snd (fold_left
         (fun st item =>
            let '(usedTokens, keepRegular) := st in
            if leTarget (usedTokens + Item.tokens item) availableTokens
            then (usedTokens + Item.tokens item, {[Item.index item]} ∪ keepRegular)
            else st)
         (rev regularMessages) (0, ∅)).

(** The loop that builds [result] and counts the removed messages. *)
Definition selectKept (compressed : list Item.t) (mustKeep keepRegular : gset nat)
  : list Item.t * nat :=
  fold_left
    (fun st item =>
       let '(result, removedCount) := st in
       if has mustKeep (Item.index item) || has keepRegular (Item.index item)
       then (result ++ [item], removedCount)
       else (result, S removedCount))
    compressed ([], 0%nat).

(** [result.sort((a, b) => a.index - b.index)]: the sort is stable, so
    its result is that of an insertion sort on [index]. *)
Fixpoint insertByIndex (item : Item.t) (sorted : list Item.t) : list Item.t :=
  match sorted with
  | [] => [item]
  | x :: rest =>
      if (Item.index x <? Item.index item)%nat then x :: insertByIndex item rest
      else item :: x :: rest
  end.

Definition sortByIndex (items : list Item.t) : list Item.t :=
  fold_right insertByIndex [] items.

(** The items after the compression pass. *)
Definition compressedItems (messages : list Message) : list Item.t :=
  (compressPass (categorize messages)).1.

(** [truncateMessagesSmart] with the target already resolved. *)
Definition truncateTo (messages : list Message) (target : Target)
  : TruncationResult.t :=
  let originalTokens :=
    fold_left (fun sum msg => sum + estimateMessageTokens msg) messages 0 in
  if leTarget originalTokens target then
    {| TruncationResult.messages := messages;
       TruncationResult.originalTokens := originalTokens;
       TruncationResult.truncatedTokens := originalTokens;
       TruncationResult.removedCount := 0;
       TruncationResult.compressedCount := 0 |}
  else
    let categorized := categorize messages in
    let (compressed, compressedCount) := compressPass categorized in
    let currentTokens := sumTokens compressed in
    if leTarget currentTokens target then
      {| TruncationResult.messages := List.map Item.msg compressed;
         TruncationResult.originalTokens := originalTokens;
         TruncationResult.truncatedTokens := currentTokens;
         TruncationResult.removedCount := 0;
         TruncationResult.compressedCount := compressedCount |}
    else
      let mustKeep := mustKeepSet compressed in
      let mustKeepTokens := mustKeepTokensOf compressed mustKeep in
      let availableTokens := subTarget target mustKeepTokens in
      let keepRegular := keepRegularSet compressed mustKeep availableTokens in
      let (result, removedCount) := selectKept compressed mustKeep keepRegular in
      let result := sortByIndex result in
      {| TruncationResult.messages := List.map Item.msg result;
         TruncationResult.originalTokens := originalTokens;
         TruncationResult.truncatedTokens := sumTokens result;
         TruncationResult.removedCount := removedCount;
         TruncationResult.compressedCount := compressedCount |}.

(** [targetTokens ?? getDynamicTargetLimit(model)] *)
Definition resolveTarget (model : jsstring) (targetTokens : option Target) : Target :=
  match targetTokens with
  | Some target => target
  | None => getDynamicTargetLimit model
  end.

Definition truncateMessagesSmart (messages : list Message) (model : jsstring)
    (targetTokens : option Target) : TruncationResult.t :=
  truncateTo messages (resolveTarget model targetTokens).

(** ** The claims' own wording, as definitions *)

(** The table entries, other than [default], whose key the model name
    starts with. *)
Definition prefixCandidates (model : jsstring) : list (jsstring * Z) :=
  List.filter
    (fun e => negb (bool_decide (e.1 = js "default")) && startsWith model e.1)
    MODEL_CONTEXT_LIMITS.

(** Longest-prefix match as the specification words it: of the candidate
    entries, one whose key is longest. *)
Definition longestPrefixEntry (model : jsstring) : option (jsstring * Z) :=
  fold_left
    (fun best e =>
       match best with
       | None => Some e
       | Some b => if (length b.1 <? length e.1)%nat then Some e else best
       end)
    (prefixCandidates model) None.

(** The resolution order of the specification: exact match, longest
    prefix, family pattern, default. *)
Definition specContextLimit (model : jsstring) : Z :=
  match ownProperty model with
  | Some limit => limit
  | None =>
      match longestPrefixEntry model with
      | Some (_, limit) => limit
      | None => familyLimit model
      end
  end.

(** The characters the estimator counts, as the specification lists
    them: the text parts of the content, for an assistant message the
    function name and serialised arguments of each call, for a tool
    message the referenced id. *)
Definition partChars (part : ContentPart) : Z :=
  match part with
  | TextPart t => Z.of_nat (length t)
  | ImagePart _ => 0
  end.

Definition contentChars (c : Content) : Z :=
  match c with
  | Text s => Z.of_nat (length s)
  | Parts ps => foldr (fun part n => partChars part + n) 0 ps
  | Null => 0
  end.

Definition callChars (tc : ToolCall) : Z :=
  match tc_function tc with
  | Some f => Z.of_nat (length (fn_name f)) + Z.of_nat (length (fn_arguments f))
  | None => 0
  end.

Definition toolCallChars (m : Message) : Z :=
  match role m, tool_calls m with
  | assistant, Some calls => foldr (fun tc n => callChars tc + n) 0 calls
  | _, _ => 0
  end.

Definition referencedIdChars (m : Message) : Z :=
  match role m, tool_call_id m with
  | tool, Some i => Z.of_nat (length i)
  | _, _ => 0
  end.

Definition countedChars (m : Message) : Z :=
  contentChars (content m) + toolCallChars m + referencedIdChars m.

(** The number of image-reference parts of a message. *)
Definition imageParts (m : Message) : Z :=
  match content m with
  | Parts ps =>
      foldr (fun part n => match part with ImagePart _ => 1 + n | TextPart _ => n end) 0 ps
  | _ => 0
  end.

(** ** Sample conversations *)

Definition call (i f : string) : ToolCall :=
  {| tc_id := js i;
     tc_function := Some {| fn_name := js f; fn_arguments := js "{}" |} |}.

Definition assistantMsg (calls : list ToolCall) : Message :=
  {| role := assistant; content := Null;
     tool_calls := Some calls; tool_call_id := None |}.

Definition toolMsg (i : jsstring) (c : jsstring) : Message :=
  {| role := tool; content := Text c; tool_calls := None; tool_call_id := Some i |}.

Definition userMsg (c : string) : Message :=
  {| role := user; content := Text (js c); tool_calls := None; tool_call_id := None |}.

Definition systemMsg (c : string) : Message :=
  {| role := system; content := Text (js c); tool_calls := None; tool_call_id := None |}.

(** A clock that stands still and a generator whose first two draws differ. *)
Definition sampleClock (n : nat) : Z := 1700000000000.

Definition sampleSuffix (n : nat) : jsstring :=
  match n with O => js "k3x9q2a" | S _ => js "p0m7w4z" end.

(** ** The ordering invariant of the repairer *)

(** The calls an assistant message carries; no calls for any other role. *)
Definition callsOf (m : Message) : list ToolCall :=
  match role m, tool_calls m with
  | assistant, Some calls => calls
  | _, _ => []
  end.

Definition isResponseTo (tc : ToolCall) (r : Message) : Prop :=
  role r = tool /\ tool_call_id r = Some (tc_id tc).

(** The messages after position [i] answer the calls of [m] one by one,
    and the message after them, if any, is not a tool response. *)
Definition blockAt (l : list Message) (i : nat) (m : Message) : Prop :=
  (forall j tc, callsOf m !! j = Some tc ->
     exists r, l !! (i + 1 + j)%nat = Some r /\ isResponseTo tc r)
  /\ (forall r, l !! (i + 1 + length (callsOf m))%nat = Some r -> role r <> tool).

(** Every assistant message carrying N calls is followed by exactly the N
    responses to them, in call order, and a tool response stands nowhere
    but in such a block. *)
Definition OrderingInvariant (l : list Message) : Prop :=
  (forall i m, l !! i = Some m -> role m = assistant -> blockAt l i m)
  /\ (forall k r, l !! k = Some r -> role r = tool ->
        exists i m j, l !! i = Some m /\ role m = assistant
                      /\ (j < length (callsOf m))%nat /\ k = (i + 1 + j)%nat).

(** The same invariant by construction of the list. *)
Inductive Repaired : list Message -> Prop :=
| Repaired_nil : Repaired []
| Repaired_cons m responses rest :
    role m <> tool ->
    Forall2 isResponseTo (callsOf m) responses ->
    Repaired rest ->
    Repaired (m :: responses ++ rest).

(** An id the sanitiser leaves alone: not empty, only [A-Za-z0-9_-]. *)
Definition sanitizedId (i : jsstring) : Prop :=
  i <> [] /\ forallb isIdChar i = true.

(** Every call id and every referenced id of the list is sanitised. *)
Definition SanitizedIds (l : list Message) : Prop :=
  forall m, m ∈ l ->
    (forall tc, tc ∈ callsOf m -> sanitizedId (tc_id tc))
    /\ (forall i, role m = tool -> tool_call_id m = Some i -> sanitizedId i).

(** What the rebuilding loop appends for one call and for one message. *)
Definition respond (responses : gmap jsstring Message) (tc : ToolCall) : Message :=
  match responses !! tc_id tc with
  | Some toolResponse => toolResponse
  | None => placeholderResponse tc
  end.

Definition emitted (responses : gmap jsstring Message) (msg : Message) : list Message :=
  if isTool msg then []
  else msg :: List.map (respond responses) (callsOf msg).

(** Two rounds that reuse the call id ["a"], each with its own response. *)
Definition reusedIdConversation : list Message :=
  [ assistantMsg [call "a" "f"]; toolMsg (js "a") (js "first");
    assistantMsg [call "a" "f"]; toolMsg (js "a") (js "second") ].

(** One assistant message whose two calls share an id and have no response. *)
Definition twinCallsConversation : list Message :=
  [ assistantMsg [call "a" "f"; call "a" "g"] ].

(** The category recorded in the item at a position. *)
Definition itemCategoryAt (items : list Item.t) (i : nat) : option MessageCategory :=
  Item.category <$> items !! i.

(** The category of the message at a position. *)
Definition categoryAt (messages : list Message) (i : nat) : option MessageCategory :=
  categorizeMessage <$> messages !! i.

(** A round of tool calls followed by a user turn. *)
Definition toolRoundThenUser : list Message :=
  [ assistantMsg [call "c1" "f"]; toolMsg (js "c1") (js "ok");
    userMsg "hi"; userMsg "there" ].

(** What the compression pass may do to the message at a position. *)
Definition fitted (m o : Message) : Prop :=
  o = m
  \/ (role m = tool /\ 8000 < estimateMessageTokens m
      /\ o = compressToolResult m 8000).


(** A round of tool calls whose response is 40000 characters long. *)
Definition oversizedToolRound : list Message :=
  [ assistantMsg [call "c1" "f"]; toolMsg (js "c1") (repeat 120%N 40000) ].

(** The number of characters of a text content. *)
Definition contentLength (m : Message) : Z :=
  match content m with
  | Text s => Z.of_nat (length s)
  | _ => 0
  end.

(** A tool response with a two-character content and a 32000-character
    [tool_call_id]: its estimate is 8005 tokens. *)
Definition longIdResponse : Message :=
  toolMsg (repeat 97%N 32000) (js "hi").

(** Compression as the specification describes it: the first
    [floor(retained * 0.6)] characters, the elision marker naming the
    number of characters left out, and the last [floor(retained * 0.3)]
    characters, with
    [retained = floor(length * (ceiling / cost) * 0.9)]. *)
Definition retainedLength (content : jsstring) (currentTokens ceiling : Z) : Z :=
  jsFloor (num (Z.of_nat (length content)) * (num ceiling / num currentTokens) * 0.9)%float.

Definition specCompressedContent (content : jsstring) (currentTokens ceiling : Z)
  : jsstring :=
  let retained := retainedLength content currentTokens ceiling in
  let head := jsFloor (num retained * 0.6)%float in
  let tail := jsFloor (num retained * 0.3)%float in
  take (Z.to_nat head) content
  ++ elisionPrefix
  ++ ofNumber (Z.of_nat (length content) - head - tail)
  ++ elisionSuffix
  ++ drop (length content - Z.to_nat tail) content.

(** One repaired round followed by a user turn. *)
Definition repairedConversation : list Message :=
  [ assistantMsg [call "a" "f"]; toolMsg (js "a") (js "ok"); userMsg "thanks" ].

(** ** Model name translator *)

(** [s.endsWith(p)] *)
Definition endsWith (s p : jsstring) : bool :=
  startsWith (rev s) (rev p).

(** Lower-casing of a string of ASCII code units: [A-Z] to [a-z]. *)
Definition asciiLower (s : jsstring) : jsstring :=
  List.map (fun c => if ((65 <=? c) && (c <=? 90))%N then (c + 32)%N else c) s.

Definition isAscii (s : jsstring) : bool :=
  forallb (fun c => (c <? 128)%N) s.

Section Translator.

(** [String.prototype.toLowerCase] follows the Unicode case tables, which
    the model takes as given; on a string of ASCII code units it is
    [asciiLower]. *)
Variable toLowerCase : jsstring -> jsstring.

Definition translateModelName (model : jsstring) : jsstring :=
  let modelLower := toLowerCase model in
  if startsWith model (js "claude-sonnet-4-") then js "claude-sonnet-4"
  else if startsWith model (js "claude-opus-4-") then js "claude-opus-4"
  else if startsWith model (js "claude-haiku-4-") then js "claude-haiku-4"
  else if includes modelLower (js "gpt") && includes modelLower (js "5.1")
          && includes modelLower (js "codex") then js "gpt-5.1"
  else if includes modelLower (js "gpt") && endsWith modelLower (js "-codex")
  then slice model 0 (Some (-6))
  else model.

(** ** The message pipeline of [handleCompletion] *)

Variable dateNow : nat -> Z.
Variable randomSuffix : nat -> jsstring.

(** From the payload to the model and messages sent on: translate the
    model name, sanitise the ids, repair the sequence, and fit the budget
    of the translated model if the estimate exceeds it. *)
Definition processPayload (model : jsstring) (messages : list Message)
  : Gen.M (jsstring * list Message) :=
  let translatedModel := translateModelName model in
  let* sanitized := sanitizeToolIdsInMessages dateNow randomSuffix messages in
  let processedMessages := fixToolCallsMessages sanitized in
  let processedMessages :=
    if needsTruncation processedMessages translatedModel
    then TruncationResult.messages
           (truncateMessagesSmart processedMessages translatedModel None)
    else processedMessages in
  Gen.ret (translatedModel, processedMessages).

End Translator.

(** ** Declarative readings used in the statements *)

(** A message with the characters outside [A-Za-z0-9_-] removed from the
    ids the sanitiser looks at. *)
Definition stripToolCall (tc : ToolCall) : ToolCall :=
  {| tc_id := List.filter isIdChar (tc_id tc); tc_function := tc_function tc |}.

Definition stripIds (msg : Message) : Message :=
  {| role := role msg; content := content msg;
     tool_calls :=
       match assistantCalls msg with
       | Some calls => Some (List.map stripToolCall calls)
       | None => tool_calls msg
       end;
     tool_call_id :=
       match toolResponseId msg with
       | Some i => Some (List.filter isIdChar i)
       | None => tool_call_id msg
       end |}.

(** The ids the sanitiser looks at all keep at least one character. *)
Definition idsSurviveStripping (msg : Message) : Prop :=
  (forall i, toolResponseId msg = Some i -> List.filter isIdChar i <> [])
  /\ (forall calls tc, assistantCalls msg = Some calls -> tc ∈ calls ->
        List.filter isIdChar (tc_id tc) <> []).

(** The last tool response of the list that carries the id. *)
Definition lastResponse (messages : list Message) (i : jsstring) : option Message :=
  last (List.filter (fun r => bool_decide (toolResponseId r = Some i)) messages).

(** The repaired sequence, read off the input: every message that is not
    a tool message, followed for each of its calls by the last response
    with the call's id, or by a placeholder. *)
Definition repairedFrom (messages : list Message) : list Message :=
  flat_map
    (fun m =>
       if isTool m then []
       else m :: List.map
                   (fun tc => default (placeholderResponse tc)
                                (lastResponse messages (tc_id tc)))
                   (callsOf m))
    messages.

(** Sum of the estimates of the items the predicate selects. *)
Definition tokensWhere (P : Item.t -> bool) (items : list Item.t) : Z :=
  foldr (fun item sum => if P item then Item.tokens item + sum else sum) 0 items.

(** A call with id ["x!1"] and a response that refers to it. *)
Definition unsanitizedRound : list Message :=
  [ assistantMsg [call "x!1" "f"]; toolMsg (js "x!1") (js "ok") ].

(** A response placed before the assistant message that calls for it. *)
Definition responseBeforeCall : list Message :=
  [ toolMsg (js "a") (js "done"); assistantMsg [call "a" "f"; call "b" "g"] ].

(** The test of the final loop of the selection pass: the item is in the
    must-keep set or among the regular messages the greedy walk kept. *)
Definition selectionKeeps (compressed : list Item.t) (target : Target)
    (item : Item.t) : bool :=
  let mustKeep := mustKeepSet compressed in
  let keepRegular :=
    keepRegularSet compressed mustKeep
      (subTarget target (mustKeepTokensOf compressed mustKeep)) in
  has mustKeep (Item.index item) || has keepRegular (Item.index item).

(** Two messages that differ at most in their content. *)
Definition sameShape (m o : Message) : Prop :=
  role o = role m /\ tool_calls o = tool_calls m /\ tool_call_id o = tool_call_id m.

(** Two rounds of tool calls with a user turn between them and after. *)
Definition twoToolRounds : list Message :=
  [ assistantMsg [call "c1" "f"]; toolMsg (js "c1") (js "one");
    userMsg "next";
    assistantMsg [call "c2" "g"]; toolMsg (js "c2") (js "two");
    userMsg "thanks" ].

(** * Properties *)

(** ** Token estimator *)

Lemma contentText_parts_length ps acc :
  Z.of_nat (length (fold_left
    (fun text part =>
       match part with
       | TextPart t => text ++ t
       | ImagePart _ => text ++ repeat 32%N (128 * 4)%nat
       end) ps acc))
  = Z.of_nat (length acc)
    + foldr (fun part n => partChars part + n) 0 ps
    + 512 * foldr (fun part n => match part with ImagePart _ => 1 + n | TextPart _ => n end) 0 ps.
Proof.
  revert acc. induction ps as [|p ps IH]; intros acc; cbn [fold_left foldr].
  - lia.
  - rewrite IH. destruct p as [t|u]; cbn [partChars].
    + rewrite length_app. lia.
    + rewrite length_app, repeat_length. lia.
Qed.

Lemma contentText_length c :
  Z.of_nat (length (contentText c))
  = contentChars c
    + 512 * match c with
            | Parts ps =>
                foldr (fun part n => match part with ImagePart _ => 1 + n | TextPart _ => n end) 0 ps
            | _ => 0
            end.
Proof.
  destruct c as [s|ps|]; simpl; try lia.
  rewrite contentText_parts_length. simpl. lia.
Qed.

Lemma toolCallText_fold_length calls acc :
  Z.of_nat (length (fold_left (fun text toolCall => text ++ toolCallText toolCall) calls acc))
  = Z.of_nat (length acc) + foldr (fun tc n => callChars tc + n) 0 calls.
Proof.
  revert acc. induction calls as [|tc calls IH]; intros acc; simpl.
  - lia.
  - rewrite IH, length_app. unfold toolCallText, callChars.
    destruct (tc_function tc); simpl; rewrite ?length_app; lia.
Qed.

Lemma messageText_length m :
  Z.of_nat (length (messageText m)) = countedChars m + 512 * imageParts m.
Proof.
  unfold messageText, countedChars, imageParts, toolCallChars, referencedIdChars,
    toolResponseId.
  pose proof (contentText_length (content m)) as Hc.
  destruct (role m) eqn:Hr.
  - destruct (content m); simpl in *; lia.
  - destruct (content m); simpl in *; lia.
  - destruct (tool_calls m) as [calls|].
    + rewrite toolCallText_fold_length. destruct (content m); simpl in *; lia.
    + destruct (content m); simpl in *; lia.
  - destruct (tool_call_id m) as [i|].
    + destruct i as [|c i]; simpl truthy; cbv iota.
      * destruct (content m); simpl in *; lia.
      * rewrite length_app. destruct (content m); simpl in *; lia.
    + destruct (content m); simpl in *; lia.
Qed.

Lemma countedChars_nonneg m : 0 <= countedChars m.
Proof.
  assert (Hp : forall ps, 0 <= foldr (fun part n => partChars part + n) 0 ps).
  { induction ps as [|[t|u] ps IH]; simpl; lia. }
  assert (Hk : forall cs, 0 <= foldr (fun tc n => callChars tc + n) 0 cs).
  { induction cs as [|tc cs IH]; simpl; [lia|].
    unfold callChars at 1. destruct (tc_function tc); lia. }
  unfold countedChars, toolCallChars, referencedIdChars.
  assert (0 <= contentChars (content m)).
  { destruct (content m); simpl; auto; lia. }
  destruct (role m); destruct (tool_calls m); destruct (tool_call_id m);
    try specialize (Hk l); lia.
Qed.

Lemma estimateMessageTokens_pos m : 4 <= estimateMessageTokens m.
Proof.
  unfold estimateMessageTokens.
  assert (0 <= (Z.of_nat (length (messageText m)) + 3) / 4)
    by (apply Z.div_pos; lia).
  lia.
Qed.

(** C9. The estimate of a message is [c + 128 * k + 4], where [c] is the
    ceiling of a quarter of the counted characters (text parts, and for an
    assistant message the names and arguments of its calls, for a tool
    message the referenced id) and [k] the number of image parts; it is a
    non-negative integer. *)
Theorem estimateMessageTokens_formula (m : Message) :
  exists c : Z,
    4 * (c - 1) < countedChars m <= 4 * c
    /\ estimateMessageTokens m = c + 128 * imageParts m + 4
    /\ 0 <= estimateMessageTokens m.
Proof.
  exists ((countedChars m + 3) / 4).
  pose proof (countedChars_nonneg m) as Hn.
  pose proof (estimateMessageTokens_pos m) as Hpos.
  split; [|split]; [| |lia].
  - pose proof (Z.div_mod (countedChars m + 3) 4 ltac:(lia)) as Hd.
    pose proof (Z.mod_pos_bound (countedChars m + 3) 4 ltac:(lia)) as Hb.
    lia.
  - unfold estimateMessageTokens. rewrite messageText_length.
    replace (countedChars m + 512 * imageParts m + 3)
      with (countedChars m + 3 + (128 * imageParts m) * 4) by lia.
    rewrite Z.div_add by lia. lia.
Qed.

(** ** The truncation test *)

Lemma total_ge_start messages acc :
  acc <= fold_left (fun sum msg => sum + estimateMessageTokens msg) messages acc.
Proof.
  revert acc. induction messages as [|m ms IH]; intros acc; simpl; [lia|].
  specialize (IH (acc + estimateMessageTokens m)).
  pose proof (estimateMessageTokens_pos m). lia.
Qed.

Lemma needsTruncationFrom_total target messages acc :
  gtTarget acc target = false ->
  needsTruncationFrom target acc messages
  = gtTarget (fold_left (fun sum msg => sum + estimateMessageTokens msg) messages acc) target.
Proof.
  revert acc. induction messages as [|m ms IH]; intros acc Hacc; simpl.
  - by rewrite Hacc.
  - destruct (gtTarget (acc + estimateMessageTokens m) target) eqn:Hgt.
    + pose proof (total_ge_start ms (acc + estimateMessageTokens m)) as Hge.
      destruct target as [t|]; simpl in *; [|done].
      symmetry. apply Z.ltb_lt. apply Z.ltb_lt in Hgt. lia.
    + by apply IH.
Qed.

Lemma limits_in_table :
  Forall (fun e => e.2 ∈ [8192; 32768; 128000; 200000; 1000000]) MODEL_CONTEXT_LIMITS.
Proof. apply (bool_decide_unpack _). vm_compute. exact I. Qed.

Lemma familyLimit_range model :
  familyLimit model ∈ [8192; 32768; 128000; 200000; 1000000].
Proof.
  unfold familyLimit.
  repeat match goal with |- context [if ?b then _ else _] => destruct b end;
    set_solver.
Qed.

Lemma ownProperty_Some model limit :
  ownProperty model = Some limit -> (model, limit) ∈ MODEL_CONTEXT_LIMITS.
Proof.
  unfold ownProperty.
  destruct (List.find _ MODEL_CONTEXT_LIMITS) as [[k v]|] eqn:He; [|done].
  intros [= <-]. apply find_some in He as [Hin Hk].
  apply bool_decide_eq_true in Hk. simpl in Hk. subst k.
  by apply list_elem_of_In.
Qed.

Lemma firstPrefixEntry_Some model e :
  firstPrefixEntry model = Some e ->
  e ∈ MODEL_CONTEXT_LIMITS /\ e.1 <> js "default" /\ startsWith model e.1 = true.
Proof.
  unfold firstPrefixEntry. intros He.
  apply find_some in He as [Hin Hk].
  apply andb_prop in Hk as [Hd Hs]. apply negb_true_iff in Hd.
  apply bool_decide_eq_false in Hd.
  split; [by apply list_elem_of_In|done].
Qed.

Lemma getModelContextLimit_range model limit :
  getModelContextLimit model = Limit limit ->
  limit ∈ [8192; 32768; 128000; 200000; 1000000].
Proof.
  pose proof limits_in_table as Ht. rewrite Forall_forall in Ht.
  unfold getModelContextLimit.
  destruct (ownProperty model) as [v|] eqn:He.
  - intros [= <-]. apply ownProperty_Some in He. apply (Ht _ He).
  - case_bool_decide; [done|].
    destruct (firstPrefixEntry model) as [[k v]|] eqn:Hp.
    + intros [= <-]. apply firstPrefixEntry_Some in Hp as [Hin _].
      apply (Ht _ Hin).
    + intros [= <-]. apply familyLimit_range.
Qed.

Lemma getDynamicTargetLimit_pos model t :
  getDynamicTargetLimit model = Tokens t -> 0 < t.
Proof.
  unfold getDynamicTargetLimit.
  destruct (getModelContextLimit model) as [c|] eqn:Hc; [|done].
  apply getModelContextLimit_range in Hc.
  intros [= <-].
  repeat (apply elem_of_cons in Hc as [->|Hc]; [by vm_compute|]).
  by apply elem_of_nil in Hc.
Qed.

(** C10. [needsTruncation] answers whether the total estimate exceeds the
    dynamic target of the model: stopping at the first prefix sum above
    the target decides the same as comparing the full sum, every estimate
    being positive. (A target that is not a number compares false both
    ways.) *)
Theorem needsTruncation_iff_total_exceeds (messages : list Message) (model : jsstring) :
  needsTruncation messages model
  = gtTarget (getTotalTokens messages) (getDynamicTargetLimit model).
Proof.
  unfold needsTruncation, getTotalTokens.
  apply needsTruncationFrom_total.
  destruct (getDynamicTargetLimit model) as [t|] eqn:Ht; [|done].
  apply getDynamicTargetLimit_pos in Ht. simpl. apply Z.ltb_ge. lia.
Qed.

(** ** Budget fitter: nothing to do *)

(** C7. When the total estimate is at most the target, the fitter
    returns the messages as they are, counts nothing as removed or
    compressed, and reports the same estimate before and after. *)
Theorem truncateMessagesSmart_within_budget
    (messages : list Message) (model : jsstring) (targetTokens : option Target) (t : Z) :
  resolveTarget model targetTokens = Tokens t ->
  getTotalTokens messages <= t ->
  let r := truncateMessagesSmart messages model targetTokens in
  TruncationResult.messages r = messages
  /\ TruncationResult.removedCount r = 0%nat
  /\ TruncationResult.compressedCount r = 0%nat
  /\ TruncationResult.originalTokens r = getTotalTokens messages
  /\ TruncationResult.truncatedTokens r = TruncationResult.originalTokens r.
Proof.
  intros Ht Hle. unfold truncateMessagesSmart, truncateTo. rewrite Ht.
  fold (getTotalTokens messages). simpl leTarget.
  apply Z.leb_le in Hle. rewrite Hle. simpl. auto.
Qed.

Lemma truncateMessagesSmart_within_budget_witness :
  TruncationResult.messages
    (truncateMessagesSmart [systemMsg "be brief"; userMsg "hello"] (js "gpt-4o")
       (Some (Tokens 10000)))
  = [systemMsg "be brief"; userMsg "hello"].
Proof.
  apply (truncateMessagesSmart_within_budget
           [systemMsg "be brief"; userMsg "hello"] (js "gpt-4o")
           (Some (Tokens 10000)) 10000).
  - reflexivity.
  - vm_compute. discriminate.
Defined.

(** ** Tool identifier sanitiser *)

(** C4, as stated, fails: an id made only of characters that are
    stripped is not empty, and each of two successive calls on it draws a
    fresh fallback. *)
Lemma sanitizeToolId_not_pure_on_nonempty :
  ~ (forall (dateNow : nat -> Z) (randomSuffix : nat -> jsstring)
            (id : jsstring) (n : nat),
        id <> [] ->
        let first := sanitizeToolId dateNow randomSuffix id n in
        let second := sanitizeToolId dateNow randomSuffix id first.2 in
        first.1 = second.1).
Proof.
  intros H.
  specialize (H sampleClock sampleSuffix (js "!!!") 0%nat ltac:(discriminate)).
  vm_compute in H. discriminate.
Qed.

(** C4, amended. An id that keeps at least one character of
    [A-Za-z0-9_-] is sanitised to those characters, whatever the clock,
    the random generator and the number of fallbacks drawn before: any two
    calls on it return the same id, and neither draws a fallback. *)
Theorem sanitizeToolId_deterministic
    (dateNow dateNow' : nat -> Z) (randomSuffix randomSuffix' : nat -> jsstring)
    (id : jsstring) (n n' : nat) :
  List.filter isIdChar id <> [] ->
  sanitizeToolId dateNow randomSuffix id n = (List.filter isIdChar id, n)
  /\ (sanitizeToolId dateNow randomSuffix id n).1
     = (sanitizeToolId dateNow' randomSuffix' id n').1.
Proof.
  intros Hkeep.
  assert (Hs : forall d r k, sanitizeToolId d r id k = (List.filter isIdChar id, k)).
  { intros d r k. unfold sanitizeToolId.
    destruct id as [|c id']; [done|]. cbn [truthy negb].
    destruct (List.filter isIdChar (c :: id')); [done|]. reflexivity. }
  by rewrite !Hs.
Qed.

Lemma sanitizeToolId_deterministic_witness :
  (sanitizeToolId sampleClock sampleSuffix (js "x!1") 0%nat).1
  = (sanitizeToolId sampleClock sampleSuffix (js "x!1") 1%nat).1.
Proof.
  apply (sanitizeToolId_deterministic sampleClock sampleClock
           sampleSuffix sampleSuffix (js "x!1") 0%nat 1%nat).
  vm_compute. discriminate.
Defined.

(** ** Model capability table *)

Lemma table_keys_distinct : NoDup (MODEL_CONTEXT_LIMITS.*1).
Proof. apply (bool_decide_unpack _). vm_compute. exact I. Qed.

Lemma find_key_unique (l : list (jsstring * Z)) key limit :
  NoDup (l.*1) -> (key, limit) ∈ l ->
  List.find (fun e => bool_decide (e.1 = key)) l = Some (key, limit).
Proof.
  induction l as [|[k v] l IH]; intros Hnd Hin.
  - by apply elem_of_nil in Hin.
  - apply NoDup_cons in Hnd as [Hk Hnd]. cbn [List.find fst].
    apply elem_of_cons in Hin as [[= -> ->]|Hin].
    + by rewrite bool_decide_eq_true_2.
    + rewrite bool_decide_eq_false_2; [by apply IH|].
      intros ->. apply Hk. apply list_elem_of_fmap. by exists (key, limit).
Qed.

Lemma find_first_match {A} (f : A -> bool) pre x post :
  Forall (fun e => f e = false) pre -> f x = true ->
  List.find f (pre ++ x :: post) = Some x.
Proof.
  induction 1 as [|e pre He _ IH]; intros Hx; simpl.
  - by rewrite Hx.
  - rewrite He. by apply IH.
Qed.

Lemma find_no_match {A} (f : A -> bool) l :
  Forall (fun e => f e = false) l -> List.find f l = None.
Proof. induction 1 as [|e l He _ IH]; simpl; [done|]. by rewrite He. Qed.

Lemma ownProperty_exact model limit :
  (model, limit) ∈ MODEL_CONTEXT_LIMITS -> ownProperty model = Some limit.
Proof.
  intros Hin. unfold ownProperty.
  by rewrite (find_key_unique _ _ _ table_keys_distinct Hin).
Qed.

Lemma ownProperty_absent model :
  (forall limit, (model, limit) ∉ MODEL_CONTEXT_LIMITS) -> ownProperty model = None.
Proof.
  intros Hno. destruct (ownProperty model) as [v|] eqn:He; [|done].
  apply ownProperty_Some in He. by destruct (Hno v).
Qed.

(** C2, as stated, fails: the prefix stage returns the first matching
    entry in table order, not the longest. ["gpt-4-32k-0613"] starts with
    the keys ["gpt-4"] and ["gpt-4-32k"]; the longest gives 32768, the
    code answers 8192. *)
Lemma getModelContextLimit_not_longest_prefix :
  longestPrefixEntry (js "gpt-4-32k-0613") = Some (js "gpt-4-32k", 32768)
  /\ specContextLimit (js "gpt-4-32k-0613") = 32768
  /\ getModelContextLimit (js "gpt-4-32k-0613") = Limit 8192
  /\ ~ (forall model, getModelContextLimit model = Limit (specContextLimit model)).
Proof.
  split; [by vm_compute|]. split; [by vm_compute|]. split; [by vm_compute|].
  intros H. specialize (H (js "gpt-4-32k-0613")). vm_compute in H. discriminate.
Qed.

(** C2, amended. For a model name that is not a property name inherited
    from [Object.prototype]: a key of the table resolves to its entry;
    otherwise the first entry in table order (other than [default]) whose
    key is a prefix of the name decides; with no such entry the family
    patterns are tried in the order claude, gemini, gpt-4, gpt-5, o-series,
    and the default is 128000. *)
Theorem getModelContextLimit_resolution (model : jsstring) :
  model ∉ objectPrototypeKeys ->
  (forall limit, (model, limit) ∈ MODEL_CONTEXT_LIMITS ->
     getModelContextLimit model = Limit limit)
  /\ ((forall limit, (model, limit) ∉ MODEL_CONTEXT_LIMITS) ->
      (forall pre key limit post,
         MODEL_CONTEXT_LIMITS = pre ++ (key, limit) :: post ->
         key <> js "default" ->
         startsWith model key = true ->
         Forall (fun e => e.1 = js "default" \/ startsWith model e.1 = false) pre ->
         getModelContextLimit model = Limit limit)
      /\ ((forall e, e ∈ MODEL_CONTEXT_LIMITS -> e.1 <> js "default" ->
             startsWith model e.1 = false) ->
          getModelContextLimit model =
          Limit (if includes model (js "claude") then 200000
                 else if includes model (js "gemini") then 1000000
                 else if includes model (js "gpt-4") then 128000
                 else if includes model (js "gpt-5") then 128000
                 else if startsWith model (js "o1") || startsWith model (js "o3")
                         || startsWith model (js "o4") then 200000
                 else 128000))).
Proof.
  intros Hproto. split; [|intros Hnokey; split].
  - intros limit Hin. unfold getModelContextLimit.
    by rewrite (ownProperty_exact _ _ Hin).
  - intros pre key limit post Htable Hkey Hstarts Hpre.
    unfold getModelContextLimit.
    rewrite (ownProperty_absent _ Hnokey), bool_decide_eq_false_2 by done.
    unfold firstPrefixEntry. rewrite Htable.
    rewrite (find_first_match _ pre (key, limit) post).
    + done.
    + eapply Forall_impl; [exact Hpre|]. intros e [He|He]; simpl.
      * by rewrite bool_decide_eq_true_2.
      * rewrite He. apply andb_false_r.
    + simpl. rewrite Hstarts. by rewrite bool_decide_eq_false_2.
  - intros Hnone. unfold getModelContextLimit.
    rewrite (ownProperty_absent _ Hnokey), bool_decide_eq_false_2 by done.
    unfold firstPrefixEntry. rewrite find_no_match; [done|].
    apply Forall_forall. intros e He.
    destruct (decide (e.1 = js "default")) as [Hd|Hd].
    + by rewrite bool_decide_eq_true_2.
    + rewrite (Hnone e He Hd). apply andb_false_r.
Qed.

Lemma getModelContextLimit_resolution_witness :
  getModelContextLimit (js "gpt-4o-2024-08-06") = Limit 8192.
Proof.
  destruct (getModelContextLimit_resolution (js "gpt-4o-2024-08-06")) as [_ Hrest].
  - apply (bool_decide_unpack _). vm_compute. exact I.
  - destruct Hrest as [Hprefix _].
    + intros limit Hin. apply list_elem_of_In in Hin. vm_compute in Hin.
      intuition discriminate.
    + apply (Hprefix [] (js "gpt-4") 8192 (tail MODEL_CONTEXT_LIMITS));
        [reflexivity|discriminate|reflexivity|constructor].
Defined.

(** ** Tool-call sequence repairer *)

Lemma assistantCalls_callsOf m :
  match assistantCalls m with
  | Some calls => callsOf m = calls
  | None => callsOf m = []
  end.
Proof.
  unfold assistantCalls, callsOf.
  destruct (role m); try done. by destruct (tool_calls m) as [[|tc tcs]|].
Qed.

Lemma pushResponses_eq responses fixed calls :
  pushResponses responses fixed calls = fixed ++ List.map (respond responses) calls.
Proof.
  unfold pushResponses. revert fixed.
  induction calls as [|tc calls IH]; intros fixed; simpl.
  - by rewrite app_nil_r.
  - unfold respond at 1.
    by destruct (responses !! tc_id tc); rewrite IH, <- app_assoc.
Qed.

Lemma rebuild_eq responses messages fixed :
  rebuild responses messages fixed = fixed ++ flat_map (emitted responses) messages.
Proof.
  unfold rebuild. revert fixed.
  induction messages as [|msg messages IH]; intros fixed; simpl.
  - by rewrite app_nil_r.
  - rewrite IH. unfold emitted at 2.
    destruct (isTool msg); [done|].
    pose proof (assistantCalls_callsOf msg) as Hc.
    destruct (assistantCalls msg) as [calls|]; rewrite Hc.
    + rewrite pushResponses_eq. by rewrite <- !app_assoc.
    + simpl. by rewrite <- !app_assoc.
Qed.

Lemma fixToolCallsMessages_eq messages :
  fixToolCallsMessages messages
  = flat_map (emitted (toolResponseMap messages)) messages.
Proof. unfold fixToolCallsMessages. by rewrite rebuild_eq. Qed.

Lemma find_app_split {A} (f : A -> bool) l1 l2 :
  List.find f (l1 ++ l2)
  = match List.find f l1 with Some x => Some x | None => List.find f l2 end.
Proof. induction l1 as [|x l1 IH]; simpl; [done|]. by destruct (f x). Qed.

(** The map holds, for each id, the last response of the list with it. *)
Lemma toolResponseMap_fold (messages : list Message) (m0 : gmap jsstring Message) (i : jsstring) :
  fold_left recordResponse messages m0 !! i
  = match List.find (fun r => bool_decide (toolResponseId r = Some i)) (rev messages) with
    | Some r => Some r
    | None => m0 !! i
    end.
Proof.
  revert m0. induction messages as [|msg messages IH]; intros m0; simpl; [done|].
  rewrite IH, find_app_split.
  destruct (List.find _ (rev messages)); [done|]. simpl. unfold recordResponse.
  case_bool_decide as Hid.
  - rewrite Hid. by rewrite lookup_insert_eq.
  - destruct (toolResponseId msg) as [i'|]; [|done].
    rewrite lookup_insert_ne; [done|]. congruence.
Qed.

Lemma toolResponseMap_lookup messages i :
  toolResponseMap messages !! i
  = List.find (fun r => bool_decide (toolResponseId r = Some i)) (rev messages).
Proof.
  unfold toolResponseMap. rewrite toolResponseMap_fold.
  by destruct (List.find _ (rev messages)).
Qed.

Lemma toolResponseId_Some r i :
  toolResponseId r = Some i <-> role r = tool /\ tool_call_id r = Some i /\ i <> [].
Proof.
  unfold toolResponseId. split.
  - destruct (role r); try done. destruct (tool_call_id r) as [i'|]; [|done].
    destruct i' as [|c i']; simpl; [done|]. by intros [= <-].
  - intros (-> & -> & Hne). by destruct i.
Qed.

Lemma toolResponseMap_Some messages i r :
  toolResponseMap messages !! i = Some r ->
  r ∈ messages /\ role r = tool /\ tool_call_id r = Some i.
Proof.
  rewrite toolResponseMap_lookup. intros Hf.
  apply find_some in Hf as [Hin Hid].
  apply bool_decide_eq_true in Hid. apply toolResponseId_Some in Hid as (? & ? & _).
  split; [|done]. apply list_elem_of_In. by apply in_rev.
Qed.

Lemma toolResponseMap_present messages i r :
  r ∈ messages -> toolResponseId r = Some i ->
  exists r', toolResponseMap messages !! i = Some r'.
Proof.
  intros Hin Hid. rewrite toolResponseMap_lookup.
  destruct (List.find _ (rev messages)) as [r'|] eqn:Hf; [by exists r'|].
  exfalso. eapply find_none with (x := r) in Hf.
  - by rewrite bool_decide_eq_true_2 in Hf.
  - apply in_rev. rewrite rev_involutive. by apply list_elem_of_In.
Qed.

Lemma respond_isResponseTo messages tc :
  isResponseTo tc (respond (toolResponseMap messages) tc).
Proof.
  unfold respond.
  destruct (toolResponseMap messages !! tc_id tc) as [r|] eqn:Hr.
  - by apply toolResponseMap_Some in Hr as (_ & ? & ?).
  - done.
Qed.

Lemma flat_map_emitted_Repaired messages l :
  Repaired (flat_map (emitted (toolResponseMap messages)) l).
Proof.
  induction l as [|m l IH]; simpl; [constructor|].
  unfold emitted at 1. unfold isTool. case_bool_decide as Hr; [done|].
  simpl. constructor; [done| |done].
  induction (callsOf m) as [|tc calls IHc]; simpl; constructor; [|done].
  apply respond_isResponseTo.
Qed.

Lemma Repaired_head l r : Repaired l -> l !! 0%nat = Some r -> role r <> tool.
Proof. intros [|m responses rest Hm _ _]; [done|]. by intros [= <-]. Qed.

Lemma blockAt_shift pre rest i m :
  blockAt rest i m -> blockAt (pre ++ rest) (length pre + i) m.
Proof.
  intros [Hcalls Hnext]. split.
  - intros j tc Hj. destruct (Hcalls j tc Hj) as (r & Hr & Hresp).
    exists r. split; [|done].
    rewrite lookup_app_r by lia. rewrite <- Hr. f_equal. lia.
  - intros r Hr. apply Hnext.
    rewrite lookup_app_r in Hr by lia. rewrite <- Hr. f_equal. lia.
Qed.

Lemma blockAt_unshift pre rest i m :
  blockAt (pre ++ rest) (length pre + i) m -> blockAt rest i m.
Proof.
  intros [Hcalls Hnext]. split.
  - intros j tc Hj. destruct (Hcalls j tc Hj) as (r & Hr & Hresp).
    exists r. split; [|done].
    rewrite lookup_app_r in Hr by lia. rewrite <- Hr. f_equal. lia.
  - intros r Hr. apply Hnext.
    rewrite lookup_app_r by lia. rewrite <- Hr. f_equal. lia.
Qed.

Lemma Repaired_OrderingInvariant l : Repaired l -> OrderingInvariant l.
Proof.
  induction 1 as [|m responses rest Hm Hresp Hrest [IH1 IH2]].
  - split; intros ? ? Hl; by rewrite lookup_nil in Hl.
  - pose proof (Forall2_length _ _ _ Hresp) as Hlen.
    change (m :: responses ++ rest) with ((m :: responses) ++ rest).
    assert (Htool : forall i x, (m :: responses) !! S i = Some x -> role x = tool).
    { intros i x Hx. simpl in Hx.
      destruct (Forall2_lookup_r _ _ _ _ _ Hresp Hx) as (tc & _ & Hx'). apply Hx'. }
    split.
    + intros i x Hi Hx.
      destruct (decide (i < length (m :: responses))%nat) as [Hlt|Hge].
      * rewrite lookup_app_l in Hi by done.
        destruct i as [|i]; [|apply Htool in Hi; congruence].
        injection Hi as <-. split.
        -- intros j tc Hj.
           destruct (Forall2_lookup_l _ _ _ _ _ Hresp Hj) as (r & Hr & Hok).
           exists r. split; [|done]. simpl.
           apply lookup_app_l_Some. exact Hr.
        -- intros r Hr. simpl in Hr. rewrite Hlen in Hr.
           rewrite lookup_app_r in Hr by lia.
           replace (length responses - length responses)%nat with 0%nat in Hr by lia.
           by eapply Repaired_head.
      * rewrite lookup_app_r in Hi by lia.
        replace i with (length (m :: responses) + (i - length (m :: responses)))%nat
          at 1 by lia.
        apply blockAt_shift. by apply IH1.
    + intros k r Hk Hr.
      destruct (decide (k < length (m :: responses))%nat) as [Hlt|Hge].
      * rewrite lookup_app_l in Hk by done.
        destruct k as [|k]; [injection Hk as <-; congruence|].
        exists 0%nat, m, k. simpl in Hlt.
        split; [done|]. split.
        -- destruct (role m) eqn:Hrole; try done;
             unfold callsOf in Hlen; rewrite Hrole in Hlen; simpl in Hlen; lia.
        -- split; lia.
      * rewrite lookup_app_r in Hk by lia.
        destruct (IH2 _ _ Hk Hr) as (i & x & j & Hi & Hx & Hj & Heq).
        exists (length (m :: responses) + i)%nat, x, j.
        split; [|split; [done|split; [done|lia]]].
        rewrite lookup_app_r by lia. rewrite <- Hi. f_equal. lia.
Qed.

(** C1. In the output of the repairer every assistant message carrying N
    tool calls is followed at once by N tool responses whose
    [tool_call_id]s are the call ids in listed order, the message after
    them is not a tool response, and every tool response of the output
    stands in such a block. *)
Theorem fixToolCallsMessages_ordering (messages : list Message) :
  OrderingInvariant (fixToolCallsMessages messages).
Proof.
  rewrite fixToolCallsMessages_eq.
  apply Repaired_OrderingInvariant, flat_map_emitted_Repaired.
Qed.

Lemma OrderingInvariant_uncons m l :
  OrderingInvariant (m :: l) ->
  role m <> tool
  /\ Forall2 isResponseTo (callsOf m) (take (length (callsOf m)) l)
  /\ OrderingInvariant (drop (length (callsOf m)) l).
Proof.
  intros [H1 H2]. set (n := length (callsOf m)).
  assert (Hm : role m <> tool).
  { intros Hr. destruct (H2 0%nat m eq_refl Hr) as (i & x & j & _ & _ & _ & Heq). lia. }
  assert (Hcalls : forall j tc, callsOf m !! j = Some tc ->
            exists r, l !! j = Some r /\ isResponseTo tc r).
  { intros j tc Hj. destruct (decide (role m = assistant)) as [Ha|Hna].
    - destruct (H1 0%nat m eq_refl Ha) as [Hc _]. apply (Hc j tc Hj).
    - unfold callsOf in Hj. destruct (role m); try done. }
  assert (Hn : (n <= length l)%nat).
  { destruct n as [|n'] eqn:En; [lia|].
    destruct (lookup_lt_is_Some_2 (callsOf m) n') as [tc Htc]; [fold n; lia|].
    destruct (Hcalls n' tc Htc) as (r & Hr & _).
    apply lookup_lt_Some in Hr. lia. }
  assert (Hsplit : m :: l = (m :: take n l) ++ drop n l).
  { simpl. by rewrite take_drop. }
  assert (Hpre : length (m :: take n l) = S n).
  { simpl. by rewrite length_take_le. }
  split; [done|]. split.
  - apply Forall2_same_length_lookup_2.
    + rewrite length_take_le; done.
    + intros i tc r Htc Hr.
      destruct (Hcalls i tc Htc) as (r' & Hr' & Hok).
      rewrite lookup_take_lt in Hr; [congruence|].
      apply lookup_lt_Some in Htc. by fold n in Htc.
  - split.
    + intros i x Hi Hx. apply (blockAt_unshift (m :: take n l)).
      rewrite <- Hsplit. apply H1; [|done].
      rewrite Hsplit, lookup_app_r by lia. rewrite <- Hi. f_equal. lia.
    + intros k r Hk Hr.
      assert (Hk' : (m :: l) !! (S n + k)%nat = Some r).
      { rewrite Hsplit, lookup_app_r by lia. rewrite <- Hk. f_equal. lia. }
      destruct (H2 _ _ Hk' Hr) as (i0 & x0 & j0 & Hi0 & Hx0 & Hj0 & Heq).
      destruct i0 as [|i0].
      * injection Hi0 as <-. fold n in Hj0. lia.
      * simpl in Hi0. destruct (decide (i0 < n)%nat) as [Hlt|Hge].
        -- destruct (lookup_lt_is_Some_2 (callsOf m) i0) as [tc Htc]; [by fold n|].
           destruct (Hcalls i0 tc Htc) as (r' & Hr' & Htool & _). congruence.
        -- exists (i0 - n)%nat, x0, j0.
           split; [|split; [done|split; [done|lia]]].
           rewrite lookup_drop. rewrite <- Hi0. f_equal. lia.
Qed.

Lemma OrderingInvariant_Repaired l : OrderingInvariant l -> Repaired l.
Proof.
  remember (length l) as n eqn:Hn. revert l Hn.
  induction n as [n IH] using lt_wf_ind. intros l Hn Hinv.
  destruct l as [|m l]; [constructor|].
  destruct (OrderingInvariant_uncons m l Hinv) as (Hm & Hresp & Hrest).
  rewrite <- (take_drop (length (callsOf m)) l).
  constructor; [done|done|].
  apply (IH (length (drop (length (callsOf m)) l))); [|done|done].
  rewrite length_drop. simpl in Hn. lia.
Qed.

Lemma respond_all (responses : gmap jsstring Message) calls rs :
  Forall2 isResponseTo calls rs ->
  (forall r i, r ∈ rs -> tool_call_id r = Some i -> responses !! i = Some r) ->
  List.map (respond responses) calls = rs.
Proof.
  induction 1 as [|tc r calls rs [_ Hid] _ IH]; intros Hmap; simpl; [done|].
  f_equal.
  - unfold respond. rewrite (Hmap r (tc_id tc)); [done|by left|done].
  - apply IH. intros r' i Hin. apply Hmap. by right.
Qed.

Lemma emitted_responses (responses : gmap jsstring Message) calls rs :
  Forall2 isResponseTo calls rs -> flat_map (emitted responses) rs = [].
Proof.
  induction 1 as [|tc r calls rs [Hrole _] _ IH]; simpl; [done|].
  rewrite IH. unfold emitted, isTool. by rewrite bool_decide_eq_true_2.
Qed.

Lemma flat_map_emitted_fixed (responses : gmap jsstring Message) l :
  Repaired l ->
  (forall r i, r ∈ l -> role r = tool -> tool_call_id r = Some i ->
               responses !! i = Some r) ->
  flat_map (emitted responses) l = l.
Proof.
  induction 1 as [|m rs rest Hm Hresp Hrest IH]; intros Hmap; [done|].
  simpl. rewrite flat_map_app, (emitted_responses _ _ _ Hresp). simpl.
  unfold emitted, isTool. rewrite bool_decide_eq_false_2 by done. simpl.
  f_equal. f_equal.
  - apply respond_all; [done|]. intros r i Hin Hid.
    apply Hmap; [right; apply elem_of_app; by left| |done].
    apply list_elem_of_lookup in Hin as [j Hj].
    by destruct (Forall2_lookup_r _ _ _ _ _ Hresp Hj) as (tc & _ & ? & _).
  - apply IH. intros r i Hin. apply Hmap. right. apply elem_of_app. by right.
Qed.

Lemma reusedIdConversation_sanitized : SanitizedIds reusedIdConversation.
Proof.
  intros m Hin. unfold reusedIdConversation in Hin.
  repeat (apply elem_of_cons in Hin as [->|Hin]); [| | | |by apply elem_of_nil in Hin].
  all: split; [intros tc Htc|intros i Hr Hi].
  all: try (by apply elem_of_nil in Htc).
  all: try discriminate Hr.
  all: try (apply list_elem_of_singleton in Htc as ->).
  all: try (injection Hi as <-).
  all: by split.
Qed.

Lemma reusedIdConversation_ordered : OrderingInvariant reusedIdConversation.
Proof.
  apply Repaired_OrderingInvariant. unfold reusedIdConversation.
  apply (Repaired_cons _ [_] (_ :: _)); [done|by repeat constructor|].
  apply (Repaired_cons _ [_] []); [done|by repeat constructor|constructor].
Qed.

(** C6, as stated, fails: a list can be sanitised and satisfy the
    ordering invariant while two of its responses share an id; the map of
    responses keeps the later one, and the repairer puts it in both
    places. The same happens to the repairer's own output when two calls
    without a response share an id and differ in the tool name. *)
Lemma fixToolCallsMessages_not_idempotent :
  SanitizedIds reusedIdConversation
  /\ OrderingInvariant reusedIdConversation
  /\ fixToolCallsMessages reusedIdConversation <> reusedIdConversation
  /\ fixToolCallsMessages (fixToolCallsMessages twinCallsConversation)
     <> fixToolCallsMessages twinCallsConversation.
Proof.
  split; [apply reusedIdConversation_sanitized|].
  split; [apply reusedIdConversation_ordered|].
  split; intros H; vm_compute in H; discriminate.
Qed.

(** C6, amended. On a list that is sanitised, satisfies the ordering
    invariant, and in which tool responses with the same [tool_call_id]
    are the same message, the repairer changes nothing. *)
Theorem fixToolCallsMessages_idempotent (l : list Message) :
  SanitizedIds l ->
  OrderingInvariant l ->
  (forall r1 r2, r1 ∈ l -> r2 ∈ l -> role r1 = tool -> role r2 = tool ->
                 tool_call_id r1 = tool_call_id r2 -> r1 = r2) ->
  fixToolCallsMessages l = l.
Proof.
  intros Hsan Hinv Huniq. rewrite fixToolCallsMessages_eq.
  apply flat_map_emitted_fixed; [by apply OrderingInvariant_Repaired|].
  intros r i Hin Hrole Hid.
  destruct (Hsan r Hin) as [_ Hne]. destruct (Hne i Hrole Hid) as [Hne' _].
  assert (Hrid : toolResponseId r = Some i) by by apply toolResponseId_Some.
  destruct (toolResponseMap_present l i r Hin Hrid) as [r' Hr'].
  rewrite Hr'. f_equal.
  apply toolResponseMap_Some in Hr' as (Hin' & Hrole' & Hid').
  apply Huniq; [done|done|done|done|congruence].
Qed.

(** ** Budget fitter: the items *)

Lemma compressPass_fold items out count :
  (fold_left
     (fun st item =>
        let '(out, compressedCount) := st in
        let (item', counted) := compressItem item in
        (out ++ [item'], if counted then S compressedCount else compressedCount))
     items (out, count)).1
  = out ++ List.map (fun item => (compressItem item).1) items.
Proof.
  revert out count. induction items as [|it items IH]; intros out count; simpl.
  - by rewrite app_nil_r.
  - destruct (compressItem it) as [it' counted]. rewrite IH.
    by rewrite <- app_assoc.
Qed.

Lemma compressedItems_eq messages :
  compressedItems messages
  = List.map (fun item => (compressItem item).1) (categorize messages).
Proof. unfold compressedItems, compressPass. by rewrite compressPass_fold. Qed.

Lemma compressToolResult_role m maxTokens :
  role (compressToolResult m maxTokens) = role m.
Proof. unfold compressToolResult. by destruct (_ <=? _). Qed.

Lemma compressItem_props it :
  let it' := (compressItem it).1 in
  Item.index it' = Item.index it
  /\ Item.category it' = Item.category it
  /\ role (Item.msg it') = role (Item.msg it)
  /\ (Item.msg it' = Item.msg it
      \/ (role (Item.msg it) = tool /\ 8000 < Item.tokens it
          /\ Item.msg it' = compressToolResult (Item.msg it) 8000)).
Proof.
  unfold compressItem, isTool.
  case_bool_decide as Hr; simpl; [|by auto].
  destruct (8000 <? Item.tokens it) eqn:Hbig; simpl; [|by auto].
  apply Z.ltb_lt in Hbig.
  destruct (_ <? Item.tokens it); simpl; [|by auto].
  rewrite compressToolResult_role. auto 10.
Qed.

Lemma compressedItems_length messages :
  length (compressedItems messages) = length messages.
Proof.
  rewrite compressedItems_eq, length_map. unfold categorize.
  by rewrite length_imap.
Qed.

Lemma compressedItems_lookup messages i it :
  compressedItems messages !! i = Some it ->
  exists m, messages !! i = Some m
            /\ Item.index it = i
            /\ Item.category it = categorizeMessage m
            /\ role (Item.msg it) = role m
            /\ fitted m (Item.msg it).
Proof.
  rewrite compressedItems_eq. unfold categorize.
  change (List.map ?f ?l) with (f <$> l).
  rewrite list_lookup_fmap, list_lookup_imap.
  destruct (messages !! i) as [m|] eqn:Hm; [|done]. simpl. intros [= <-].
  exists m. split; [done|].
  match goal with |- context [compressItem ?x] =>
    destruct (compressItem_props x) as (Hi & Hc & Hr & Hf) end.
  cbn [Item.index Item.category Item.msg Item.tokens] in *.
  rewrite Hi, Hc, Hr. split; [done|]. split; [done|]. split; [done|].
  unfold fitted. destruct Hf as [Hf|(? & ? & Hf)]; rewrite Hf; auto.
Qed.

Lemma compressedItems_category messages i :
  Item.category <$> compressedItems messages !! i = categoryAt messages i.
Proof.
  unfold categoryAt.
  destruct (compressedItems messages !! i) as [it|] eqn:Hit.
  - apply compressedItems_lookup in Hit as (m & Hm & _ & Hc & _).
    rewrite Hm. simpl. by rewrite Hc.
  - apply lookup_ge_None in Hit. rewrite compressedItems_length in Hit.
    apply lookup_ge_None in Hit. by rewrite Hit.
Qed.

(** ** Budget fitter: the tool-call chain *)

Section ToolChain.

Variable items : list Item.t.
Hypothesis indexed : forall i it, items !! i = Some it -> Item.index it = i.

Local Abbreviation cat := (itemCategoryAt items).

Lemma lastToolIndexFrom_spec n :
  match lastToolIndexFrom items n with
  | Some last =>
      (last < n)%nat /\ cat last = Some tool_context
      /\ forall j, (last < j < n)%nat -> cat j <> Some tool_context
  | None => forall j, (j < n)%nat -> cat j <> Some tool_context
  end.
Proof.
  induction n as [|n IH]; simpl.
  - intros j Hj. lia.
  - unfold itemCategoryAt in *. destruct (items !! n) as [it|] eqn:Hit.
    + case_bool_decide as Hc.
      * split; [lia|]. split; [by rewrite Hit; simpl; f_equal|]. intros j Hj. lia.
      * destruct (lastToolIndexFrom items n) as [last|].
        -- destruct IH as (Hlt & Hlast & Hgap). split; [lia|]. split; [done|].
           intros j Hj. destruct (decide (j = n)) as [->|Hne].
           ++ rewrite Hit. simpl. congruence.
           ++ apply Hgap. lia.
        -- intros j Hj. destruct (decide (j = n)) as [->|Hne].
           ++ rewrite Hit. simpl. congruence.
           ++ apply IH. lia.
    + destruct (lastToolIndexFrom items n) as [last|].
      * destruct IH as (Hlt & Hlast & Hgap). split; [lia|]. split; [done|].
        intros j Hj. destruct (decide (j = n)) as [->|Hne].
        -- by rewrite Hit.
        -- apply Hgap. lia.
      * intros j Hj. destruct (decide (j = n)) as [->|Hne].
        -- by rewrite Hit.
        -- apply IH. lia.
Qed.

Lemma chainFrom_spec last n keep i :
  (n <= length items)%nat ->
  i ∈ chainFrom items last n keep
  <-> i ∈ keep
      \/ ((i < n)%nat /\ cat i = Some tool_context
          /\ forall j, (i < j < n)%nat -> cat j = Some regular -> ~ (j < last)%nat).
Proof.
  revert keep. induction n as [|n IH]; intros keep Hn; simpl.
  - split; [by left|]. intros [?|(? & _)]; [done|lia].
  - destruct (lookup_lt_is_Some_2 items n ltac:(lia)) as [it Hit].
    rewrite Hit. pose proof (indexed _ _ Hit) as Hidx.
    assert (Hcat : cat n = Some (Item.category it))
      by (unfold itemCategoryAt; by rewrite Hit).
    destruct (Item.category it) eqn:Hc.
    + rewrite IH by lia. split.
      * intros [?|(Hi & Htc & Hgap)]; [by left|]. right.
        split; [lia|]. split; [done|]. intros j Hj Hreg.
        destruct (decide (j = n)) as [->|Hne]; [congruence|]. apply Hgap; [lia|done].
      * intros [?|(Hi & Htc & Hgap)]; [by left|]. right.
        destruct (decide (i = n)) as [->|Hne]; [congruence|].
        split; [lia|]. split; [done|]. intros j Hj. apply Hgap. lia.
    + rewrite IH by lia. rewrite Hidx. split.
      * intros [Hin|(Hi & Htc & Hgap)].
        -- apply elem_of_union in Hin as [Hin|Hin]; [|by left].
           apply elem_of_singleton in Hin as ->. right.
           split; [lia|]. split; [done|]. intros j Hj. lia.
        -- right. split; [lia|]. split; [done|]. intros j Hj Hreg.
           destruct (decide (j = n)) as [->|Hne]; [congruence|]. apply Hgap; [lia|done].
      * intros [?|(Hi & Htc & Hgap)]; [left; apply elem_of_union; by right|].
        destruct (decide (i = n)) as [->|Hne];
          [left; apply elem_of_union; left; by apply elem_of_singleton|]. right.
        split; [lia|]. split; [done|]. intros j Hj. apply Hgap. lia.
    + destruct (n <? last)%nat eqn:Hlt.
      * apply Nat.ltb_lt in Hlt. split; [by left|].
        intros [?|(Hi & Htc & Hgap)]; [done|]. exfalso.
        destruct (decide (i = n)) as [->|Hne]; [congruence|].
        apply (Hgap n); [lia|done|done].
      * apply Nat.ltb_ge in Hlt. rewrite IH by lia. split.
        -- intros [?|(Hi & Htc & Hgap)]; [by left|]. right.
           split; [lia|]. split; [done|]. intros j Hj Hreg.
           destruct (decide (j = n)) as [->|Hne]; [lia|]. apply Hgap; [lia|done].
        -- intros [?|(Hi & Htc & Hgap)]; [by left|]. right.
           destruct (decide (i = n)) as [->|Hne]; [congruence|].
           split; [lia|]. split; [done|]. intros j Hj. apply Hgap. lia.
Qed.

(** The chain rule in full: a position is added exactly when it holds a
    tool-context message and no regular message stands between it and a
    later tool-context message. *)
Lemma keepToolChain_spec keep i :
  i ∈ keepToolChain items keep
  <-> i ∈ keep
      \/ (cat i = Some tool_context
          /\ forall j k, (i < j < k)%nat -> cat j = Some regular ->
                         cat k <> Some tool_context).
Proof.
  unfold keepToolChain.
  pose proof (lastToolIndexFrom_spec (length items)) as Hlast.
  assert (Hin : forall j c, cat j = Some c -> (j < length items)%nat).
  { intros j c Hj. unfold itemCategoryAt in Hj.
    destruct (items !! j) eqn:E; [|done]. by apply lookup_lt_Some in E. }
  destruct (lastToolIndexFrom items (length items)) as [last|].
  - destruct Hlast as (Hlt & Hl & Hgap).
    rewrite chainFrom_spec by lia. split.
    + intros [?|(Hi & Htc & Hstop)]; [by left|]. right. split; [done|].
      intros j k Hjk Hreg Hk.
      destruct (decide (k <= last)%nat) as [Hle|Hgt].
      * apply (Hstop j); [lia|done|lia].
      * apply (Hgap k); [|done]. split; [lia|]. by eapply Hin.
    + intros [?|(Htc & Hstop)]; [by left|]. right.
      assert (i <= last)%nat.
      { destruct (decide (i <= last)%nat) as [|Hgt]; [done|].
        exfalso. apply (Hgap i); [|done]. split; [lia|]. by eapply Hin. }
      split; [lia|]. split; [done|]. intros j Hj Hreg Hjl.
      apply (Hstop j last); [lia|done|done].
  - split; [by left|]. intros [?|(Htc & _)]; [done|].
    exfalso. apply (Hlast i); [by eapply Hin|done].
Qed.

End ToolChain.

Lemma compressedItems_indexed messages i it :
  compressedItems messages !! i = Some it -> Item.index it = i.
Proof. intros Hit. by apply compressedItems_lookup in Hit as (m & _ & ? & _). Qed.

Lemma keepToolChain_messages messages keep i :
  i ∈ keepToolChain (compressedItems messages) keep
  <-> i ∈ keep
      \/ (categoryAt messages i = Some tool_context
          /\ forall j k, (i < j < k)%nat -> categoryAt messages j = Some regular ->
                         categoryAt messages k <> Some tool_context).
Proof.
  rewrite (keepToolChain_spec _ (compressedItems_indexed messages)).
  unfold itemCategoryAt. by setoid_rewrite compressedItems_category.
Qed.

(** C3, as stated, fails: the scan does not start at the end of the
    conversation but at the last tool-context message, wherever it is. In
    [toolRoundThenUser] the last message is a user turn, yet the rule adds
    the assistant call and its response, and with a budget of zero the
    fitter keeps both. *)
Lemma keepToolChain_not_only_at_end :
  categoryAt toolRoundThenUser 3 = Some regular
  /\ keepToolChain (compressedItems toolRoundThenUser) ∅ = {[0%nat; 1%nat]}
  /\ keepToolChain (compressedItems toolRoundThenUser) ∅ <> ∅
  /\ List.map role
       (TruncationResult.messages
          (truncateMessagesSmart toolRoundThenUser (js "gpt-4o") (Some (Tokens 0))))
     = [assistant; tool; user].
Proof.
  assert (Hchain : keepToolChain (compressedItems toolRoundThenUser) ∅
                   = {[0%nat; 1%nat]}); last first.
  { split; [reflexivity|]. split; [done|]. split; [|by vm_compute].
    rewrite Hchain. set_solver. }
  apply set_eq. intros i. rewrite keepToolChain_messages.
  split.
  - intros [Hin|[Hc _]]; [by apply not_elem_of_empty in Hin|].
    destruct i as [|[|[|[|i]]]]; try discriminate Hc; set_solver.
  - intros Hin. right.
    assert (Hi : i = 0%nat \/ i = 1%nat) by set_solver.
    destruct Hi as [-> | ->]; (split; [reflexivity|]);
      intros j k Hjk Hreg Hk;
      destruct k as [|[|[|[|k]]]]; try discriminate Hk; lia.
Qed.

(** C3, amended. The chain rule starts at the last tool-context message
    of the conversation, wherever it stands: a position it adds holds a
    tool-context message with no regular message between it and a later
    tool-context message; every message of the unbroken run of
    tool-context messages that ends at the last one is added; and a
    conversation without tool-context messages gets nothing added. *)
Theorem keepToolChain_scan (messages : list Message) (keep : gset nat) :
  let chain := keepToolChain (compressedItems messages) keep in
  (forall i, i ∈ chain -> i ∉ keep ->
     categoryAt messages i = Some tool_context
     /\ forall j k, (i < j < k)%nat -> categoryAt messages j = Some regular ->
                    categoryAt messages k <> Some tool_context)
  /\ (forall i last,
        (forall j, (i <= j <= last)%nat -> categoryAt messages j = Some tool_context) ->
        (forall j, (last < j)%nat -> categoryAt messages j <> Some tool_context) ->
        (i <= last)%nat -> i ∈ chain)
  /\ ((forall j, categoryAt messages j <> Some tool_context) -> chain = keep).
Proof.
  cbv zeta. split; [|split].
  - intros i Hin Hnot. apply keepToolChain_messages in Hin as [?|?]; done.
  - intros i last Hrun Hafter Hle. apply keepToolChain_messages. right.
    split; [apply Hrun; lia|]. intros j k Hjk Hreg Hk.
    destruct (decide (k <= last)%nat) as [Hkl|Hkl].
    + rewrite Hrun in Hreg by lia. discriminate.
    + apply (Hafter k); [lia|done].
  - intros Hnone. apply set_eq. intros i. rewrite keepToolChain_messages.
    split; [|by left]. intros [?|[Hc _]]; [done|]. by destruct (Hnone i).
Qed.

Lemma keepToolChain_scan_witness :
  1%nat ∈ keepToolChain (compressedItems toolRoundThenUser) ∅.
Proof.
  destruct (keepToolChain_scan toolRoundThenUser ∅) as (_ & Hrun & _).
  apply (Hrun 1%nat 1%nat).
  - intros j Hj. assert (j = 1%nat) as -> by lia. reflexivity.
  - intros j Hj Hc. destruct j as [|[|[|[|j]]]]; try discriminate Hc; lia.
  - lia.
Defined.

(** ** Budget fitter: what is kept *)

Lemma selectKept_fold items (mustKeep keepRegular : gset nat) result removed :
  (fold_left
     (fun st item =>
        let '(result, removedCount) := st in
        if has mustKeep (Item.index item) || has keepRegular (Item.index item)
        then (result ++ [item], removedCount)
        else (result, S removedCount))
     items (result, removed)).1
  = result
    ++ List.filter
         (fun item => has mustKeep (Item.index item) || has keepRegular (Item.index item))
         items.
Proof.
  revert result removed. induction items as [|it items IH]; intros result removed; simpl.
  - by rewrite app_nil_r.
  - destruct (has mustKeep (Item.index it) || has keepRegular (Item.index it)).
    + rewrite IH. by rewrite <- app_assoc.
    + by rewrite IH.
Qed.

Lemma selectKept_eq items mustKeep keepRegular :
  (selectKept items mustKeep keepRegular).1
  = List.filter
      (fun item => has mustKeep (Item.index item) || has keepRegular (Item.index item))
      items.
Proof. unfold selectKept. by rewrite selectKept_fold. Qed.

Lemma insertByIndex_least item sorted :
  Forall (fun x => (Item.index item < Item.index x)%nat) sorted ->
  insertByIndex item sorted = item :: sorted.
Proof.
  destruct 1 as [|x rest Hx _]; simpl; [done|].
  destruct (Nat.ltb_spec (Item.index x) (Item.index item)); [lia|done].
Qed.

(** Sorting a list whose indices already increase changes nothing. *)
Lemma sortByIndex_sorted items :
  StronglySorted lt (List.map Item.index items) -> sortByIndex items = items.
Proof.
  induction items as [|it items IH]; simpl; [done|].
  intros Hs. apply StronglySorted_inv in Hs as [Hs Hall].
  unfold sortByIndex in *. rewrite IH by done.
  apply insertByIndex_least. by rewrite Forall_map in Hall.
Qed.

Lemma filter_positions (R : nat -> Message -> Prop) (P : Item.t -> bool) items off :
  (forall i it, items !! i = Some it ->
     Item.index it = (off + i)%nat /\ R (off + i)%nat (Item.msg it)) ->
  let sel := List.filter P items in
  StronglySorted lt (List.map Item.index sel)
  /\ Forall (fun k => (off <= k)%nat) (List.map Item.index sel)
  /\ Forall2 R (List.map Item.index sel) (List.map Item.msg sel).
Proof.
  revert off. induction items as [|it items IH]; intros off Hitems; simpl.
  - repeat constructor.
  - destruct (IH (S off)) as (Hs & Hge & Hr).
    { intros i x Hx. specialize (Hitems (S i) x Hx).
      by replace (S off + i)%nat with (off + S i)%nat by lia. }
    destruct (Hitems 0%nat it eq_refl) as [Hidx Hrel].
    rewrite Nat.add_0_r in Hidx, Hrel.
    destruct (P it); simpl.
    + split; [|split].
      * constructor; [done|]. eapply Forall_impl; [exact Hge|]. simpl. lia.
      * constructor; [lia|]. eapply Forall_impl; [exact Hge|]. simpl. lia.
      * constructor; [by rewrite Hidx|done].
    + split; [done|]. split; [|done].
      eapply Forall_impl; [exact Hge|]. simpl. lia.
Qed.

Lemma filter_positions_elem (P : Item.t -> bool) items i it :
  (forall j x, items !! j = Some x -> Item.index x = j) ->
  items !! i = Some it -> P it = true ->
  i ∈ List.map Item.index (List.filter P items).
Proof.
  intros Hidx Hit HP. rewrite <- (Hidx _ _ Hit).
  apply list_elem_of_In, in_map, filter_In. split; [|done].
  apply list_elem_of_In. by eapply list_elem_of_lookup_2.
Qed.

Lemma seq_StronglySorted a n : StronglySorted lt (seq a n).
Proof.
  revert a. induction n as [|n IH]; intros a; simpl; constructor; [apply IH|].
  apply Forall_forall. intros k Hk. apply elem_of_seq in Hk. lia.
Qed.

Lemma filter_true {A} (l : list A) : List.filter (fun _ => true) l = l.
Proof. induction l as [|x l IH]; simpl; by rewrite ?IH. Qed.

Lemma keepSystem_spec items (keep : gset nat) i :
  i ∈ keepSystem items keep
  <-> i ∈ keep
      \/ exists it, it ∈ items /\ Item.category it = Category.system
                    /\ Item.index it = i.
Proof.
  unfold keepSystem. revert keep.
  induction items as [|x items IH]; intros keep; simpl.
  - split; [by left|]. intros [?|(it & Hin & _)]; [done|by apply elem_of_nil in Hin].
  - rewrite IH. case_bool_decide as Hc.
    + rewrite elem_of_union, elem_of_singleton. split.
      * intros [[->|?]|(it & Hin & ?)]; [right; exists x; split; [by left|done]|by left|].
        right. exists it. split; [by right|done].
      * intros [?|(it & Hin & Hcat & Hidx)]; [by left; right|].
        apply elem_of_cons in Hin as [->|Hin]; [by left; left|].
        right. by exists it.
    + split.
      * intros [?|(it & Hin & ?)]; [by left|]. right. exists it. split; [by right|done].
      * intros [?|(it & Hin & Hcat & Hidx)]; [by left|].
        apply elem_of_cons in Hin as [->|Hin]; [done|]. right. by exists it.
Qed.

Lemma keepLastUserFrom_mono items n (keep : gset nat) i :
  i ∈ keep -> i ∈ keepLastUserFrom items n keep.
Proof.
  induction n as [|n IH]; simpl; [done|]. intros Hin.
  destruct (items !! n) as [it|]; [|done].
  case_bool_decide; [|by apply IH]. apply elem_of_union. by right.
Qed.

Lemma keepLastUserFrom_last items n (keep : gset nat) i it :
  (n <= length items)%nat ->
  (i < n)%nat -> items !! i = Some it -> role (Item.msg it) = user ->
  (forall j x, (i < j < n)%nat -> items !! j = Some x -> role (Item.msg x) <> user) ->
  Item.index it ∈ keepLastUserFrom items n keep.
Proof.
  induction n as [|n IH]; intros Hn Hi Hit Hu Hlast; [lia|]. simpl.
  destruct (decide (i = n)) as [->|Hne].
  - rewrite Hit, bool_decide_eq_true_2 by done.
    apply elem_of_union. left. by apply elem_of_singleton.
  - destruct (items !! n) as [x|] eqn:Hx.
    + assert (Hnx : role (Item.msg x) <> user) by (apply (Hlast n x); [lia|done]).
      rewrite bool_decide_eq_false_2 by done.
      apply IH; [lia|lia|done|done|]. intros j y Hj. apply Hlast. lia.
    + apply lookup_ge_None in Hx. lia.
Qed.

Lemma mustKeepSet_system messages i m :
  messages !! i = Some m -> role m = system ->
  i ∈ mustKeepSet (compressedItems messages).
Proof.
  intros Hm Hr. unfold mustKeepSet.
  apply keepLastUserFrom_mono.
  apply (keepToolChain_spec _ (compressedItems_indexed messages)). left.
  apply keepSystem_spec. right.
  destruct (lookup_lt_is_Some_2 (compressedItems messages) i) as [it Hit].
  { rewrite compressedItems_length. by eapply lookup_lt_Some. }
  exists it. split; [by eapply list_elem_of_lookup_2|].
  apply compressedItems_lookup in Hit as (m' & Hm' & Hidx & Hcat & _).
  rewrite Hm in Hm'. injection Hm' as <-.
  split; [|done]. rewrite Hcat. unfold categorizeMessage. by rewrite Hr.
Qed.

Lemma mustKeepSet_last_user messages i m :
  messages !! i = Some m -> role m = user ->
  (forall j m', (i < j)%nat -> messages !! j = Some m' -> role m' <> user) ->
  i ∈ mustKeepSet (compressedItems messages).
Proof.
  intros Hm Hr Hlast. unfold mustKeepSet.
  destruct (lookup_lt_is_Some_2 (compressedItems messages) i) as [it Hit].
  { rewrite compressedItems_length. by eapply lookup_lt_Some. }
  pose proof Hit as Hit'.
  apply compressedItems_lookup in Hit' as (m' & Hm' & Hidx & _ & Hrole & _).
  rewrite Hm in Hm'. injection Hm' as <-.
  rewrite <- Hidx at 1.
  apply keepLastUserFrom_last with (i := i).
  - done.
  - by apply lookup_lt_Some in Hit.
  - done.
  - by rewrite Hrole.
  - intros j x Hj Hx.
    apply compressedItems_lookup in Hx as (mj & Hmj & _ & _ & Hrj & _).
    rewrite Hrj. apply (Hlast j); [lia|done].
Qed.

Lemma lengths_not_sublist : ~ [0; 25939] `sublist_of` [0; 40000].
Proof.
  intros Hsub.
  repeat match goal with
         | H : _ `sublist_of` _ |- _ => inversion H; clear H; subst
         end.
Qed.

(** C5, as stated, fails: when the compression pass shortens a tool
    response, the output holds the shortened message, which is no message
    of the input. With a budget of 9000 the 10010-token round
    [oversizedToolRound] comes back with its response cut from 40000 to
    25939 characters. *)
Lemma truncateMessagesSmart_not_subsequence :
  let r := truncateMessagesSmart oversizedToolRound (js "gpt-4o") (Some (Tokens 9000)) in
  contentLength <$> oversizedToolRound = [0; 40000]
  /\ contentLength <$> TruncationResult.messages r = [0; 25939]
  /\ TruncationResult.compressedCount r = 1%nat
  /\ ~ TruncationResult.messages r `sublist_of` oversizedToolRound.
Proof.
  cbv zeta.
  assert (Hin : contentLength <$> oversizedToolRound = [0; 40000])
    by by vm_compute.
  assert (Hout : contentLength <$>
            TruncationResult.messages
              (truncateMessagesSmart oversizedToolRound (js "gpt-4o")
                 (Some (Tokens 9000))) = [0; 25939]) by by vm_compute.
  split; [exact Hin|]. split; [exact Hout|]. split; [by vm_compute|].
  intros Hsub. apply (fmap_sublist contentLength) in Hsub.
  rewrite Hin, Hout in Hsub.
  by apply lengths_not_sublist in Hsub.
Qed.

(** C5, amended. The messages of the result stand at strictly increasing
    positions of the input; each is the input message at its position, or,
    for a tool response estimated above 8000 tokens, its compressed form;
    the position of every system message and of the most recent user
    message is among them. *)
Theorem truncateMessagesSmart_keeps
    (messages : list Message) (model : jsstring) (targetTokens : option Target) :
  let r := truncateMessagesSmart messages model targetTokens in
  exists kept : list nat,
    StronglySorted lt kept
    /\ Forall2 (fun k o => exists m, messages !! k = Some m /\ fitted m o)
         kept (TruncationResult.messages r)
    /\ (forall i m, messages !! i = Some m -> role m = system -> i ∈ kept)
    /\ (forall i m, messages !! i = Some m -> role m = user ->
          (forall j m', (i < j)%nat -> messages !! j = Some m' -> role m' <> user) ->
          i ∈ kept).
Proof.
  cbv zeta. unfold truncateMessagesSmart.
  set (target := resolveTarget model targetTokens). clearbody target.
  set (R := fun (k : nat) (o : Message) => exists m, messages !! k = Some m /\ fitted m o).
  assert (Hitems : forall i it, compressedItems messages !! i = Some it ->
            Item.index it = (0 + i)%nat /\ R (0 + i)%nat (Item.msg it)).
  { intros i it Hit. apply compressedItems_lookup in Hit as (m & Hm & Hi & _ & _ & Hf).
    split; [done|]. by exists m. }
  assert (Hall : forall i m, messages !! i = Some m ->
            exists it, compressedItems messages !! i = Some it).
  { intros i m Hm. apply lookup_lt_is_Some_2.
    rewrite compressedItems_length. by eapply lookup_lt_Some. }
  assert (Hkeep : forall P : Item.t -> bool,
    let sel := List.filter P (compressedItems messages) in
    (forall i m it, messages !! i = Some m -> role m = system ->
                    compressedItems messages !! i = Some it -> P it = true) ->
    (forall i m it, messages !! i = Some m -> role m = user ->
       (forall j m', (i < j)%nat -> messages !! j = Some m' -> role m' <> user) ->
       compressedItems messages !! i = Some it -> P it = true) ->
    exists kept : list nat,
      StronglySorted lt kept
      /\ Forall2 R kept (List.map Item.msg sel)
      /\ (forall i m, messages !! i = Some m -> role m = system -> i ∈ kept)
      /\ (forall i m, messages !! i = Some m -> role m = user ->
            (forall j m', (i < j)%nat -> messages !! j = Some m' -> role m' <> user) ->
            i ∈ kept)).
  { intros P sel Hsys Husr.
    destruct (filter_positions R P _ 0%nat Hitems) as (Hs & _ & Hr).
    exists (List.map Item.index sel). split; [done|]. split; [done|]. split.
    - intros i m Hm Hrole. destruct (Hall i m Hm) as [it Hit].
      apply (filter_positions_elem P _ i it (compressedItems_indexed messages) Hit).
      by eapply Hsys.
    - intros i m Hm Hrole Hlast. destruct (Hall i m Hm) as [it Hit].
      apply (filter_positions_elem P _ i it (compressedItems_indexed messages) Hit).
      by eapply Husr. }
  unfold truncateTo.
  destruct (leTarget _ target) eqn:Hfits.
  - cbn [TruncationResult.messages].
    exists (seq 0 (length messages)). split; [|split; [|split]].
    + apply seq_StronglySorted.
    + apply Forall2_same_length_lookup_2; [by rewrite length_seq|].
      intros i k o Hk Ho. apply lookup_seq in Hk as [-> _].
      exists o. split; [done|by left].
    + intros i m Hm _. apply list_elem_of_lookup. exists i.
      apply lookup_seq. split; [done|]. by eapply lookup_lt_Some.
    + intros i m Hm _ _. apply list_elem_of_lookup. exists i.
      apply lookup_seq. split; [done|]. by eapply lookup_lt_Some.
  - destruct (compressPass (categorize messages)) as [compressed compressedCount] eqn:Hpass.
    assert (compressed = compressedItems messages) as ->
      by (unfold compressedItems; by rewrite Hpass).
    destruct (leTarget (sumTokens _) target).
    + cbn [TruncationResult.messages].
      specialize (Hkeep (fun _ => true)). cbv zeta in Hkeep.
      rewrite filter_true in Hkeep. by apply Hkeep.
    + destruct (selectKept _ _ _) as [result removedCount] eqn:Hsel.
      cbn [TruncationResult.messages].
      assert (result = (selectKept (compressedItems messages)
                 (mustKeepSet (compressedItems messages))
                 (keepRegularSet (compressedItems messages)
                    (mustKeepSet (compressedItems messages))
                    (subTarget target
                       (mustKeepTokensOf (compressedItems messages)
                          (mustKeepSet (compressedItems messages)))))).1) as ->
        by by rewrite Hsel.
      rewrite selectKept_eq.
      rewrite sortByIndex_sorted.
      * apply Hkeep.
        -- intros i m it Hm Hrole Hit.
           rewrite (compressedItems_indexed _ _ _ Hit).
           apply orb_true_intro. left. apply bool_decide_eq_true.
           by eapply mustKeepSet_system.
        -- intros i m it Hm Hrole Hlast Hit.
           rewrite (compressedItems_indexed _ _ _ Hit).
           apply orb_true_intro. left. apply bool_decide_eq_true.
           by eapply mustKeepSet_last_user.
      * by destruct (filter_positions R
                       (fun item => has (mustKeepSet (compressedItems messages))
                                      (Item.index item)
                                    || has (keepRegularSet (compressedItems messages)
                                              (mustKeepSet (compressedItems messages))
                                              (subTarget target
                                                 (mustKeepTokensOf (compressedItems messages)
                                                    (mustKeepSet (compressedItems messages)))))
                                         (Item.index item))
                       _ 0%nat Hitems) as (Hs & _ & _).
Qed.

(** ** Compression of a tool result *)

Lemma compressToolResult_within_ceiling m maxTokens :
  estimateMessageTokens m <= maxTokens -> compressToolResult m maxTokens = m.
Proof.
  intros Hle. unfold compressToolResult.
  apply Z.leb_le in Hle. by rewrite Hle.
Qed.

Lemma slice_head (s : jsstring) h :
  0 <= h -> slice s 0 (Some h) = take (Z.to_nat h) s.
Proof.
  intros Hh. unfold slice.
  assert (Hfrom : sliceIndex (Z.of_nat (length s)) 0 = 0).
  { unfold sliceIndex. rewrite Z.ltb_irrefl. lia. }
  assert (Hto : sliceIndex (Z.of_nat (length s)) h = Z.min h (Z.of_nat (length s))).
  { unfold sliceIndex. destruct (Z.ltb_spec h 0); [lia|done]. }
  cbv zeta. rewrite Hfrom, Hto, Z.sub_0_r. change (Z.to_nat 0) with 0%nat.
  rewrite drop_0.
  destruct (Z.le_ge_cases h (Z.of_nat (length s))).
  - by rewrite Z.min_l by lia.
  - rewrite Z.min_r, Nat2Z.id by lia.
    rewrite (take_ge s (length s)) by lia.
    by rewrite (take_ge s (Z.to_nat h)) by lia.
Qed.

Lemma slice_tail (s : jsstring) t :
  0 < t -> slice s (- t) None = drop (length s - Z.to_nat t) s.
Proof.
  intros Ht. unfold slice.
  assert (Hfrom : Z.to_nat (sliceIndex (Z.of_nat (length s)) (- t))
                  = (length s - Z.to_nat t)%nat).
  { unfold sliceIndex. destruct (Z.ltb_spec (- t) 0); lia. }
  cbv zeta. rewrite Hfrom.
  apply take_ge. rewrite length_drop.
  unfold sliceIndex. destruct (Z.ltb_spec (- t) 0); lia.
Qed.

(** Where the tail fragment is not empty, the code builds what the
    specification describes. *)
Lemma compressToolResult_as_specified m s maxTokens :
  content m = Text s ->
  maxTokens < estimateMessageTokens m ->
  let retained := retainedLength s (estimateMessageTokens m) maxTokens in
  0 <= jsFloor (num retained * 0.6)%float ->
  0 < jsFloor (num retained * 0.3)%float ->
  content (compressToolResult m maxTokens)
  = Text (specCompressedContent s (estimateMessageTokens m) maxTokens).
Proof.
  intros Hs Hover retained Hhead Htail. unfold compressToolResult.
  destruct (Z.leb_spec (estimateMessageTokens m) maxTokens); [lia|].
  rewrite Hs. cbn [content]. unfold specCompressedContent.
  fold (retainedLength s (estimateMessageTokens m) maxTokens). fold retained.
  by rewrite slice_head, slice_tail.
Qed.

(** C8 at [longIdResponse]: the estimate is 8005, above the ceiling; the
    retained length is 1, so head and tail are both to be 0 characters
    long and the specified content is the marker alone. The code ends on
    [content.slice(-0)], which is the whole content: the two characters
    the marker reports as left out follow it. *)
Theorem compressToolResult_zero_tail_keeps_all :
  estimateMessageTokens longIdResponse = 8005
  /\ retainedLength (js "hi") 8005 8000 = 1
  /\ specCompressedContent (js "hi") 8005 8000
     = elisionPrefix ++ js "2" ++ elisionSuffix
  /\ content (compressToolResult longIdResponse 8000)
     = Text (elisionPrefix ++ js "2" ++ elisionSuffix ++ js "hi")
  /\ content (compressToolResult longIdResponse 8000)
     <> Text (specCompressedContent (js "hi") 8005 8000).
Proof.
  split; [by vm_compute|]. split; [by vm_compute|]. split; [by vm_compute|].
  split; [by vm_compute|]. intros H. vm_compute in H. discriminate.
Qed.

(** ** Witnesses for the repairer *)

Ltac solve_sanitized :=
  let m := fresh "m" in
  let Hin := fresh "Hin" in
  intros m Hin;
  repeat (apply elem_of_cons in Hin as [->|Hin]);
  try (by apply elem_of_nil in Hin);
  (split; [intros ?tc ?Htc | intros ?i ?Hr ?Hi]);
  try (by match goal with H : _ ∈ callsOf _ |- _ => apply elem_of_nil in H end);
  try (match goal with H : role _ = tool |- _ => discriminate H end);
  try (match goal with H : _ ∈ callsOf _ |- _ =>
         apply list_elem_of_singleton in H as -> end);
  try (match goal with H : tool_call_id _ = Some _ |- _ => injection H as <- end);
  by split.

Lemma repairedConversation_unique r1 r2 :
  r1 ∈ repairedConversation -> r2 ∈ repairedConversation ->
  role r1 = tool -> role r2 = tool ->
  tool_call_id r1 = tool_call_id r2 -> r1 = r2.
Proof.
  unfold repairedConversation. intros H1 H2.
  repeat (apply elem_of_cons in H1 as [->|H1]); try (by apply elem_of_nil in H1);
    repeat (apply elem_of_cons in H2 as [->|H2]); try (by apply elem_of_nil in H2);
    done.
Qed.

Lemma fixToolCallsMessages_idempotent_witness :
  fixToolCallsMessages repairedConversation = repairedConversation.
Proof.
  apply (fixToolCallsMessages_idempotent repairedConversation).
  - unfold repairedConversation. solve_sanitized.
  - apply Repaired_OrderingInvariant. unfold repairedConversation.
    apply (Repaired_cons _ [_] [_]); [done|by repeat constructor|].
    apply (Repaired_cons _ [] []); [done|constructor|constructor].
  - apply repairedConversation_unique.
Defined.

(** ** The scenarios of the specification *)

(** Scenario 1: the sanitiser strips [!], both ids become ["x1"], and the
    repairer keeps the assistant message followed by its response. *)
Example scenario_sanitize_then_repair :
  fixToolCallsMessages
    (sanitizeToolIdsInMessages sampleClock sampleSuffix
       [ assistantMsg [call "x!1" "f"]; toolMsg (js "x1") (js "ok") ] 0%nat).1
  = [ assistantMsg [call "x1" "f"]; toolMsg (js "x1") (js "ok") ].
Proof. reflexivity. Qed.

(** Scenario 2: calls [a] and [b], a response for [a] only; the response
    comes first and a placeholder for [b] follows. *)
Example scenario_missing_response :
  fixToolCallsMessages
    [ toolMsg (js "a") (js "done"); assistantMsg [call "a" "f"; call "b" "g"] ]
  = [ assistantMsg [call "a" "f"; call "b" "g"];
      toolMsg (js "a") (js "done");
      placeholderResponse (call "b" "g") ].
Proof. reflexivity. Qed.

Example placeholder_mentions_skipped :
  includes (placeholderContent (call "b" "g")) (js "skipped") = true
  /\ includes (placeholderContent (call "b" "g")) (jsonString (js "g")) = true.
Proof. split; reflexivity. Qed.

(** A response whose id no call mentions is dropped. *)
Example orphaned_response_dropped :
  fixToolCallsMessages [ userMsg "hi"; toolMsg (js "zz") (js "late") ]
  = [ userMsg "hi" ].
Proof. reflexivity. Qed.

(** Scenario 5: 40000 characters at an estimate of 10005 tokens keep
    28785 characters' worth: 17271 at the head and 8635 at the tail. *)
Example scenario_compression_lengths :
  estimateMessageTokens (toolMsg (js "c1") (repeat 120%N 40000)) = 10005
  /\ retainedLength (repeat 120%N 40000) 10005 8000 = 28785
  /\ contentLength (compressToolResult (toolMsg (js "c1") (repeat 120%N 40000)) 8000)
     = 17271 + Z.of_nat (length elisionPrefix) + 5
       + Z.of_nat (length elisionSuffix) + 8635.
Proof. split; [by vm_compute|]. split; by vm_compute. Qed.

(** An image part costs 128 tokens on top of the overhead of 4. *)
Example image_part_estimate :
  estimateMessageTokens
    {| role := user; content := Parts [ImagePart (js "https://example.test/a.png")];
       tool_calls := None; tool_call_id := None |} = 132.
Proof. reflexivity. Qed.

(** The budget of a 128000-token model keeps 15% back; that of [gpt-4]
    keeps the minimum of 4096. *)
Example dynamic_targets :
  getDynamicTargetLimit (js "gpt-4o") = Tokens 108800
  /\ getDynamicTargetLimit (js "gpt-4") = Tokens 4096
  /\ getDynamicTargetLimit (js "toString") = NaN.
Proof. repeat split; by vm_compute. Qed.

(** An id made only of stripped characters gets a different fallback at
    the call and at the response, so the repairer no longer matches them:
    the call gets a placeholder and the response is dropped. *)
Example stripped_ids_lose_their_response :
  fixToolCallsMessages
    (sanitizeToolIdsInMessages sampleClock sampleSuffix
       [ assistantMsg [call "!!!" "f"]; toolMsg (js "!!!") (js "ok") ] 0%nat).1
  = [ assistantMsg [call "tool_1700000000000_k3x9q2a" "f"];
      placeholderResponse (call "tool_1700000000000_k3x9q2a" "f") ].
Proof. reflexivity. Qed.

(** * Further properties of the code *)

(** ** Sanitiser *)

Lemma string_of_uint_idChars d :
  forallb isIdChar (js (NilEmpty.string_of_uint d)) = true.
Proof. induction d; first [reflexivity | exact IHd]. Qed.

Lemma ofNumber_idChars z : forallb isIdChar (ofNumber z) = true.
Proof.
  unfold ofNumber. destruct (Z.to_int z) as [d|d]; simpl.
  - destruct d; first [reflexivity | apply (string_of_uint_idChars (_ d))].
  - change (forallb isIdChar (js (NilZero.string_of_uint d)) = true).
    destruct d; first [reflexivity | apply (string_of_uint_idChars (_ d))].
Qed.

Lemma forallb_filter_same {A} (f : A -> bool) l :
  forallb f (List.filter f l) = true.
Proof.
  induction l as [|x l IH]; simpl; [done|].
  destruct (f x) eqn:Hx; simpl; [by rewrite Hx|done].
Qed.

Lemma filter_all_same {A} (f : A -> bool) l :
  forallb f l = true -> List.filter f l = l.
Proof.
  induction l as [|x l IH]; simpl; [done|].
  intros [Hx Hl]%andb_prop. rewrite Hx. by rewrite IH.
Qed.

Section SanitizerFacts.

Variable dateNow : nat -> Z.
Variable randomSuffix : nat -> jsstring.

Lemma fallbackId_sanitized n :
  forallb isIdChar (randomSuffix n) = true ->
  sanitizedId (fallbackId dateNow randomSuffix n).1.
Proof.
  intros Hs. unfold fallbackId. simpl. split; [done|].
  change (forallb isIdChar (js "tool_" ++ ofNumber (dateNow n) ++ js "_" ++ randomSuffix n) = true).
  rewrite !forallb_app, ofNumber_idChars, Hs. reflexivity.
Qed.

Lemma sanitizeToolId_kept id n :
  List.filter isIdChar id <> [] ->
  sanitizeToolId dateNow randomSuffix id n = (List.filter isIdChar id, n).
Proof.
  intros Hkeep. unfold sanitizeToolId.
  destruct id as [|c id']; [done|]. cbn [truthy negb].
  by destruct (List.filter isIdChar (c :: id')).
Qed.

Lemma sanitizeToolId_sanitized_at id n :
  (forall k, forallb isIdChar (randomSuffix k) = true) ->
  sanitizedId (sanitizeToolId dateNow randomSuffix id n).1.
Proof.
  intros Hs. unfold sanitizeToolId.
  destruct (truthy id); simpl; [|by apply fallbackId_sanitized].
  destruct (List.filter isIdChar id) as [|c rest] eqn:Hf; simpl.
  - by apply fallbackId_sanitized.
  - split; [done|]. rewrite <- Hf. apply forallb_filter_same.
Qed.

Lemma mapM_Forall2 {A B} (f : A -> Gen.M B) l n :
  Forall2 (fun a b => exists k, (f a k).1 = b) l (Gen.mapM f l n).1.
Proof.
  revert n. induction l as [|a l IH]; intros n; simpl; [constructor|].
  unfold Gen.bind. destruct (f a n) as [b n1] eqn:Hb.
  specialize (IH n1). destruct (Gen.mapM f l n1) as [bs n2]. simpl in *.
  constructor; [|done]. exists n. by rewrite Hb.
Qed.

Lemma mapM_pure {A B} (f : A -> Gen.M B) (g : A -> B) l n :
  (forall a k, a ∈ l -> f a k = (g a, k)) ->
  Gen.mapM f l n = (List.map g l, n).
Proof.
  intros Hf. induction l as [|a l IH]; simpl; [done|].
  unfold Gen.bind. rewrite Hf by by left.
  rewrite IH; [done|]. intros a' k Hin. apply Hf. by right.
Qed.

(** The fields of a sanitised message. *)
Lemma sanitizeMessage_fields msg n :
  let msg' := (sanitizeMessage dateNow randomSuffix msg n).1 in
  role msg' = role msg
  /\ content msg' = content msg
  /\ (match toolResponseId msg with
      | Some i => exists k, tool_call_id msg'
                            = Some (sanitizeToolId dateNow randomSuffix i k).1
      | None => tool_call_id msg' = tool_call_id msg
      end)
  /\ (match assistantCalls msg with
      | Some calls =>
          exists calls', tool_calls msg' = Some calls'
            /\ Forall2 (fun tc tc' =>
                 tc_function tc' = tc_function tc
                 /\ exists k, tc_id tc'
                              = (sanitizeToolId dateNow randomSuffix (tc_id tc) k).1)
                 calls calls'
      | None => tool_calls msg' = tool_calls msg
      end).
Proof.
  unfold sanitizeMessage, Gen.bind, Gen.ret.
  destruct (toolResponseId msg) as [i|] eqn:Hid.
  - destruct (sanitizeToolId dateNow randomSuffix i n) as [i' n1] eqn:Hi.
    destruct (assistantCalls msg) as [calls|] eqn:Hc.
    + pose proof (mapM_Forall2 (sanitizeToolCall dateNow randomSuffix) calls n1) as HF.
      destruct (Gen.mapM _ calls n1) as [calls' n2]. simpl in *.
      repeat split; try done.
      * exists n. by rewrite Hi.
      * exists calls'. split; [done|].
        eapply Forall2_impl; [exact HF|]. intros tc tc' [k <-].
        unfold sanitizeToolCall, Gen.bind, Gen.ret.
        destruct (sanitizeToolId dateNow randomSuffix (tc_id tc) k) as [j k'] eqn:Hj.
        simpl. split; [done|]. exists k. by rewrite Hj.
    + simpl. repeat split; try done. exists n. by rewrite Hi.
  - destruct (assistantCalls msg) as [calls|] eqn:Hc.
    + pose proof (mapM_Forall2 (sanitizeToolCall dateNow randomSuffix) calls n) as HF.
      destruct (Gen.mapM _ calls n) as [calls' n2]. simpl in *.
      repeat split; try done.
      exists calls'. split; [done|].
      eapply Forall2_impl; [exact HF|]. intros tc tc' [k <-].
      unfold sanitizeToolCall, Gen.bind, Gen.ret.
      destruct (sanitizeToolId dateNow randomSuffix (tc_id tc) k) as [j k'] eqn:Hj.
      simpl. split; [done|]. exists k. by rewrite Hj.
    + simpl. repeat split; done.
Qed.

End SanitizerFacts.

Lemma sampleSuffix_idChars k : forallb isIdChar (sampleSuffix k) = true.
Proof. by destruct k. Qed.

(** X1. Whatever the id, the sanitiser returns a non-empty string of
    characters from [A-Za-z0-9_-], provided the random suffix is made of
    such characters (base-36 digits are). *)
Theorem sanitizeToolId_matches_pattern
    (dateNow : nat -> Z) (randomSuffix : nat -> jsstring) (id : jsstring) (n : nat) :
  (forall k, forallb isIdChar (randomSuffix k) = true) ->
  (sanitizeToolId dateNow randomSuffix id n).1 <> []
  /\ forallb isIdChar (sanitizeToolId dateNow randomSuffix id n).1 = true.
Proof. intros Hs. by apply sanitizeToolId_sanitized_at. Qed.

Lemma sanitizeToolId_matches_pattern_witness :
  (sanitizeToolId sampleClock sampleSuffix (js "!!!") 0%nat).1 <> []
  /\ forallb isIdChar (sanitizeToolId sampleClock sampleSuffix (js "!!!") 0%nat).1 = true.
Proof.
  apply (sanitizeToolId_matches_pattern sampleClock sampleSuffix (js "!!!") 0%nat).
  intros k. destruct k; reflexivity.
Defined.

Lemma sanitizeToolIdsInMessages_each dateNow randomSuffix messages n m' :
  m' ∈ (sanitizeToolIdsInMessages dateNow randomSuffix messages n).1 ->
  exists m k, m ∈ messages /\ (sanitizeMessage dateNow randomSuffix m k).1 = m'.
Proof.
  intros Hin. apply list_elem_of_lookup in Hin as [i Hi].
  pose proof (mapM_Forall2 (sanitizeMessage dateNow randomSuffix) messages n) as HF.
  destruct (Forall2_lookup_r _ _ _ _ _ HF Hi) as (m & Hm & k & Hk).
  exists m, k. split; [by eapply list_elem_of_lookup_2|done].
Qed.

Lemma sanitized_pass_ids
    (dateNow : nat -> Z) (randomSuffix : nat -> jsstring)
    (messages : list Message) (n : nat) (m' : Message) :
  (forall k, forallb isIdChar (randomSuffix k) = true) ->
  m' ∈ (sanitizeToolIdsInMessages dateNow randomSuffix messages n).1 ->
  (forall tc, tc ∈ callsOf m' -> sanitizedId (tc_id tc))
  /\ (forall i, toolResponseId m' = Some i -> sanitizedId i).
Proof.
  intros Hs Hin.
  apply sanitizeToolIdsInMessages_each in Hin as (m & k & _ & <-).
  destruct (sanitizeMessage_fields dateNow randomSuffix m k) as (Hr & _ & Hid & Hcalls).
  set (m' := (sanitizeMessage dateNow randomSuffix m k).1) in *.
  split.
  - intros tc Htc.
    pose proof (assistantCalls_callsOf m) as Hm.
    destruct (assistantCalls m) as [calls|] eqn:Hc.
    + destruct Hcalls as (calls' & Hcalls' & HF).
      assert (callsOf m' = calls') as Hc'.
      { unfold callsOf. rewrite Hr, Hcalls'.
        unfold assistantCalls in Hc. by destruct (role m). }
      rewrite Hc' in Htc. apply list_elem_of_lookup in Htc as [j Hj].
      destruct (Forall2_lookup_r _ _ _ _ _ HF Hj) as (tc0 & _ & _ & k' & ->).
      by apply sanitizeToolId_sanitized_at.
    + assert (callsOf m' = callsOf m) as Hc'
        by (unfold callsOf; by rewrite Hr, Hcalls).
      rewrite Hc', Hm in Htc. by apply elem_of_nil in Htc.
  - intros i Hi. destruct (toolResponseId m) as [i0|] eqn:Hi0.
    + destruct Hid as [k' Hid]. apply toolResponseId_Some in Hi as (_ & Hi & _).
      rewrite Hid in Hi. injection Hi as <-. by apply sanitizeToolId_sanitized_at.
    + assert (toolResponseId m' = toolResponseId m) as Heq
        by (unfold toolResponseId; by rewrite Hr, Hid).
      congruence.
Qed.

(** X2. After the sanitising pass every call id of an assistant message
    and every non-empty [tool_call_id] of a tool message is non-empty and
    made of [A-Za-z0-9_-] only (the random suffix being so). *)
Theorem sanitizeToolIdsInMessages_ids_match_pattern
    (dateNow : nat -> Z) (randomSuffix : nat -> jsstring)
    (messages : list Message) (n : nat) (m' : Message) :
  (forall k, forallb isIdChar (randomSuffix k) = true) ->
  m' ∈ (sanitizeToolIdsInMessages dateNow randomSuffix messages n).1 ->
  (forall tc, tc ∈ callsOf m' -> sanitizedId (tc_id tc))
  /\ (forall i, toolResponseId m' = Some i -> sanitizedId i).
Proof. apply sanitized_pass_ids. Qed.

Lemma sanitizeToolIdsInMessages_ids_match_pattern_witness :
  sanitizedId (js "x1").
Proof.
  destruct (sanitizeToolIdsInMessages_ids_match_pattern sampleClock sampleSuffix
              unsanitizedRound 0%nat (toolMsg (js "x1") (js "ok"))) as [_ Hid].
  - intros k. destruct k; reflexivity.
  - right. left.
  - apply Hid. reflexivity.
Defined.

(** X3. The sanitising pass returns one message per input message, in
    order, with the same role and content, the same functions call by
    call, and a [tool_call_id] exactly where the input had one: only ids
    change. *)
Theorem sanitizeToolIdsInMessages_shape
    (dateNow : nat -> Z) (randomSuffix : nat -> jsstring)
    (messages : list Message) (n : nat) :
  Forall2
    (fun m m' =>
       role m' = role m /\ content m' = content m
       /\ (List.map tc_function <$> tool_calls m')
          = (List.map tc_function <$> tool_calls m)
       /\ (tool_call_id m' = None <-> tool_call_id m = None))
    messages (sanitizeToolIdsInMessages dateNow randomSuffix messages n).1.
Proof.
  eapply Forall2_impl;
    [apply (mapM_Forall2 (sanitizeMessage dateNow randomSuffix))|].
  intros m m' [k <-].
  destruct (sanitizeMessage_fields dateNow randomSuffix m k) as (Hr & Hc & Hid & Hcalls).
  split; [done|]. split; [done|]. split.
  - destruct (assistantCalls m) as [calls|] eqn:Ha.
    + destruct Hcalls as (calls' & -> & HF).
      assert (tool_calls m = Some calls) as ->.
      { unfold assistantCalls in Ha. destruct (role m); try done.
        by destruct (tool_calls m) as [[|? ?]|]; simplify_eq. }
      simpl. f_equal. clear -HF.
      induction HF as [|tc tc' calls calls' [Hf _] _ IH]; simpl; [done|].
      by rewrite Hf, IH.
    + by rewrite Hcalls.
  - destruct (toolResponseId m) as [i|] eqn:Hi.
    + destruct Hid as [k' ->]. apply toolResponseId_Some in Hi as (_ & -> & _). done.
    + by rewrite Hid.
Qed.

Lemma sanitizeMessage_strip dateNow randomSuffix m k :
  idsSurviveStripping m ->
  sanitizeMessage dateNow randomSuffix m k = (stripIds m, k).
Proof.
  intros [Hid Hcalls]. unfold sanitizeMessage, stripIds, Gen.bind, Gen.ret.
  destruct (toolResponseId m) as [i|] eqn:Hi.
  - rewrite sanitizeToolId_kept by by apply Hid.
    destruct (assistantCalls m) as [calls|] eqn:Hc; [|done].
    rewrite (mapM_pure _ stripToolCall); [done|].
    intros tc k' Htc. unfold sanitizeToolCall, Gen.bind, Gen.ret, stripToolCall.
    by rewrite sanitizeToolId_kept by by eapply Hcalls.
  - destruct (assistantCalls m) as [calls|] eqn:Hc; [|done].
    rewrite (mapM_pure _ stripToolCall); [done|].
    intros tc k' Htc. unfold sanitizeToolCall, Gen.bind, Gen.ret, stripToolCall.
    by rewrite sanitizeToolId_kept by by eapply Hcalls.
Qed.

(** X4. If every id the pass looks at keeps at least one allowed
    character, the pass is the plain removal of the other characters from
    each id and draws no fallback: equal ids stay equal, so a response
    still refers to its call. *)
Theorem sanitizeToolIdsInMessages_strips
    (dateNow : nat -> Z) (randomSuffix : nat -> jsstring)
    (messages : list Message) (n : nat) :
  (forall m, m ∈ messages -> idsSurviveStripping m) ->
  sanitizeToolIdsInMessages dateNow randomSuffix messages n
  = (List.map stripIds messages, n).
Proof.
  intros Hall. unfold sanitizeToolIdsInMessages.
  apply mapM_pure. intros m k Hm. by apply sanitizeMessage_strip, Hall.
Qed.

Lemma unsanitizedRound_survives m : m ∈ unsanitizedRound -> idsSurviveStripping m.
Proof.
  unfold unsanitizedRound. intros Hin.
  repeat (apply elem_of_cons in Hin as [->|Hin]); [| |by apply elem_of_nil in Hin].
  - split; [done|]. intros calls tc [= <-] Htc.
    apply list_elem_of_singleton in Htc as ->. done.
  - split; [|done]. by intros i [= <-].
Qed.

Lemma sanitizeToolIdsInMessages_strips_witness :
  sanitizeToolIdsInMessages sampleClock sampleSuffix unsanitizedRound 0%nat
  = ([ assistantMsg [call "x1" "f"]; toolMsg (js "x1") (js "ok") ], 0%nat).
Proof.
  apply (sanitizeToolIdsInMessages_strips sampleClock sampleSuffix unsanitizedRound 0%nat).
  apply unsanitizedRound_survives.
Defined.

Lemma stripIds_sanitized m :
  (forall tc, tc ∈ callsOf m -> sanitizedId (tc_id tc)) ->
  (forall i, role m = tool -> tool_call_id m = Some i -> sanitizedId i) ->
  idsSurviveStripping m /\ stripIds m = m.
Proof.
  intros Hcalls Hid.
  assert (Hrid : forall i, toolResponseId m = Some i -> List.filter isIdChar i = i).
  { intros i Hi. apply toolResponseId_Some in Hi as (Hr & Hi & _).
    destruct (Hid i Hr Hi) as [_ Hall]. by apply filter_all_same. }
  assert (Hcs : forall calls tc, assistantCalls m = Some calls -> tc ∈ calls ->
            List.filter isIdChar (tc_id tc) = tc_id tc).
  { intros calls tc Ha Htc. pose proof (assistantCalls_callsOf m) as Hm.
    rewrite Ha in Hm. rewrite <- Hm in Htc.
    destruct (Hcalls tc Htc) as [_ Hall]. by apply filter_all_same. }
  split.
  - split.
    + intros i Hi. rewrite (Hrid i Hi). by apply toolResponseId_Some in Hi as (_ & _ & ?).
    + intros calls tc Ha Htc. rewrite (Hcs calls tc Ha Htc).
      pose proof (assistantCalls_callsOf m) as Hm. rewrite Ha in Hm.
      rewrite <- Hm in Htc. by destruct (Hcalls tc Htc).
  - unfold stripIds. destruct m as [r c tcs tid]. simpl in *. f_equal.
    + destruct (assistantCalls _) as [calls|] eqn:Ha; [|done].
      assert (tcs = Some calls) as ->.
      { unfold assistantCalls in Ha. simpl in Ha. destruct r; try done.
        by destruct tcs as [[|? ?]|]; simplify_eq. }
      f_equal.
      assert (Hcs' : forall tc, tc ∈ calls ->
                List.filter isIdChar (tc_id tc) = tc_id tc)
        by (intros tc Htc; eapply Hcs; [|exact Htc]; first [exact Ha|reflexivity]).
      clear -Hcs'.
      induction calls as [|tc calls IH]; simpl; [done|]. f_equal.
      * unfold stripToolCall. rewrite Hcs' by by left. by destruct tc.
      * apply IH. intros tc' Hin. apply Hcs'. by right.
    + destruct (toolResponseId _) as [i|] eqn:Hi; [|done].
      rewrite (Hrid i eq_refl).
      by apply toolResponseId_Some in Hi as (_ & Hi & _).
Qed.

(** X5. On a list whose ids are already sanitised the pass changes
    nothing and draws no fallback. *)
Theorem sanitizeToolIdsInMessages_sanitized_unchanged
    (dateNow : nat -> Z) (randomSuffix : nat -> jsstring)
    (messages : list Message) (n : nat) :
  SanitizedIds messages ->
  sanitizeToolIdsInMessages dateNow randomSuffix messages n = (messages, n).
Proof.
  intros Hsan. unfold sanitizeToolIdsInMessages.
  rewrite (mapM_pure _ id).
  - by rewrite map_id.
  - intros m k Hm. destruct (Hsan m Hm) as [Hcalls Hid].
    destruct (stripIds_sanitized m Hcalls Hid) as [Hsurv Hsame].
    rewrite sanitizeMessage_strip by done. by rewrite Hsame.
Qed.

Lemma sanitizeToolIdsInMessages_sanitized_unchanged_witness :
  sanitizeToolIdsInMessages sampleClock sampleSuffix repairedConversation 5%nat
  = (repairedConversation, 5%nat).
Proof.
  apply (sanitizeToolIdsInMessages_sanitized_unchanged sampleClock sampleSuffix
           repairedConversation 5%nat).
  unfold repairedConversation. solve_sanitized.
Defined.

(** ** Repairer *)

Lemma find_rev_last {A} (p : A -> bool) l :
  List.find p (rev l) = last (List.filter p l).
Proof.
  induction l as [|x l IH]; simpl; [done|].
  rewrite find_app_split, IH. simpl.
  destruct (p x); [rewrite last_cons|]; by destruct (last (List.filter p l)).
Qed.

Lemma toolResponseMap_lastResponse messages i :
  toolResponseMap messages !! i = lastResponse messages i.
Proof. rewrite toolResponseMap_lookup. apply find_rev_last. Qed.

Lemma lastResponse_Some messages i r :
  lastResponse messages i = Some r ->
  r ∈ messages /\ role r = tool /\ tool_call_id r = Some i /\ i <> [].
Proof.
  intros Hl.
  assert (Hm : toolResponseMap messages !! i = Some r)
    by by rewrite toolResponseMap_lastResponse.
  destruct (toolResponseMap_Some _ _ _ Hm) as (Hin & Hr & Hid).
  repeat split; try done.
  unfold lastResponse in Hl. apply last_Some_elem_of in Hl.
  apply list_elem_of_In, filter_In in Hl as [_ Hp].
  apply bool_decide_eq_true in Hp. by apply toolResponseId_Some in Hp as (_ & _ & ?).
Qed.

Lemma emitted_repairedFrom messages m :
  emitted (toolResponseMap messages) m
  = (if isTool m then []
     else m :: List.map
                 (fun tc => default (placeholderResponse tc)
                              (lastResponse messages (tc_id tc)))
                 (callsOf m)).
Proof.
  unfold emitted. destruct (isTool m); [done|]. f_equal.
  apply map_ext. intros tc. unfold respond.
  by rewrite toolResponseMap_lastResponse.
Qed.

Lemma fixToolCallsMessages_repairedFrom_eq (messages : list Message) :
  fixToolCallsMessages messages = repairedFrom messages.
Proof.
  rewrite fixToolCallsMessages_eq. unfold repairedFrom.
  apply flat_map_ext. intros m. apply emitted_repairedFrom.
Qed.

(** X6. The repairer computes this: the messages that are not tool
    messages, in their order, each followed, call by call, by the last
    input response that carries the call's id (a later response with the
    same id wins over an earlier one), or by the placeholder when the
    input has no response with that id. *)
Theorem fixToolCallsMessages_is_repairedFrom (messages : list Message) :
  fixToolCallsMessages messages = repairedFrom messages.
Proof. apply fixToolCallsMessages_repairedFrom_eq. Qed.

Lemma respond_tool messages tc : isTool (respond (toolResponseMap messages) tc) = true.
Proof.
  destruct (respond_isResponseTo messages tc) as [Hr _].
  unfold isTool. by rewrite bool_decide_eq_true_2.
Qed.

Lemma filter_responses_nil messages calls :
  List.filter (fun m => negb (isTool m))
    (List.map (respond (toolResponseMap messages)) calls) = [].
Proof.
  induction calls as [|tc calls IH]; simpl; [done|].
  by rewrite respond_tool.
Qed.

Lemma filter_responses_all messages calls :
  List.filter isTool (List.map (respond (toolResponseMap messages)) calls)
  = List.map (respond (toolResponseMap messages)) calls.
Proof.
  induction calls as [|tc calls IH]; simpl; [done|].
  by rewrite respond_tool, IH.
Qed.

Lemma filter_app_list {A} (p : A -> bool) l1 l2 :
  List.filter p (l1 ++ l2) = List.filter p l1 ++ List.filter p l2.
Proof. induction l1 as [|x l1 IH]; simpl; [done|]. destruct (p x); by rewrite IH. Qed.

Lemma filter_emitted_other messages l :
  List.filter (fun m => negb (isTool m))
    (flat_map (emitted (toolResponseMap messages)) l)
  = List.filter (fun m => negb (isTool m)) l.
Proof.
  induction l as [|m l IH]; simpl; [done|].
  rewrite filter_app_list, IH. unfold emitted.
  destruct (isTool m) eqn:Hm; simpl; [done|].
  rewrite Hm. simpl. by rewrite filter_responses_nil.
Qed.

(** X7. The repairer keeps every message that is not a tool message,
    in the original order, and adds none. *)
Theorem fixToolCallsMessages_keeps_other_messages (messages : list Message) :
  List.filter (fun m => negb (isTool m)) (fixToolCallsMessages messages)
  = List.filter (fun m => negb (isTool m)) messages.
Proof. rewrite fixToolCallsMessages_eq. apply filter_emitted_other. Qed.

Lemma responses_emitted_ids messages l :
  List.map tool_call_id
    (List.filter isTool (flat_map (emitted (toolResponseMap messages)) l))
  = List.map (fun tc => Some (tc_id tc)) (flat_map callsOf l).
Proof.
  induction l as [|m l IH]; simpl; [done|].
  rewrite filter_app_list, !map_app, IH. f_equal.
  unfold emitted. destruct (isTool m) eqn:Hm; simpl.
  - unfold isTool in Hm. apply bool_decide_eq_true in Hm.
    unfold callsOf. by rewrite Hm.
  - rewrite Hm. rewrite filter_responses_all, map_map.
    apply map_ext. intros tc.
    by destruct (respond_isResponseTo messages tc) as [_ ->].
Qed.

(** X8. The tool messages of the repaired sequence answer the calls of
    the input one for one: read in order, their [tool_call_id]s are the
    ids of all calls of all assistant messages, in order. *)
Theorem fixToolCallsMessages_one_response_per_call (messages : list Message) :
  List.map tool_call_id (List.filter isTool (fixToolCallsMessages messages))
  = List.map (fun tc => Some (tc_id tc)) (flat_map callsOf messages).
Proof. rewrite fixToolCallsMessages_eq. apply responses_emitted_ids. Qed.

(** X9. Every tool message of the repaired sequence comes from a call of
    the input: it is the last input response carrying that call's id, or,
    when the input has none, the placeholder for the call. A response
    whose id no call mentions, or that a later response with the same id
    supersedes, is dropped. *)
Theorem fixToolCallsMessages_responses_come_from_calls
    (messages : list Message) (r : Message) :
  r ∈ fixToolCallsMessages messages -> role r = tool ->
  exists a tc,
    a ∈ messages /\ tc ∈ callsOf a /\ tool_call_id r = Some (tc_id tc)
    /\ ((lastResponse messages (tc_id tc) = Some r /\ r ∈ messages)
        \/ (lastResponse messages (tc_id tc) = None /\ r = placeholderResponse tc)).
Proof.
  rewrite fixToolCallsMessages_repairedFrom_eq. unfold repairedFrom.
  intros Hin Hr. apply list_elem_of_In, in_flat_map in Hin as (a & Ha & Hin).
  destruct (isTool a) eqn:Ht; [done|].
  unfold isTool in Ht. apply bool_decide_eq_false in Ht.
  destruct Hin as [<-|Hin]; [done|].
  apply in_map_iff in Hin as (tc & <- & Htc).
  exists a, tc. split; [by apply list_elem_of_In|]. split; [by apply list_elem_of_In|].
  destruct (lastResponse messages (tc_id tc)) as [r'|] eqn:Hl; simpl.
  - destruct (lastResponse_Some _ _ _ Hl) as (Hin' & _ & Hid & _).
    split; [done|]. by left.
  - split; [done|]. by right.
Qed.

Lemma fixToolCallsMessages_responses_come_from_calls_witness :
  exists a tc,
    a ∈ responseBeforeCall /\ tc ∈ callsOf a
    /\ tool_call_id (toolMsg (js "a") (js "done")) = Some (tc_id tc)
    /\ ((lastResponse responseBeforeCall (tc_id tc) = Some (toolMsg (js "a") (js "done"))
         /\ toolMsg (js "a") (js "done") ∈ responseBeforeCall)
        \/ (lastResponse responseBeforeCall (tc_id tc) = None
            /\ toolMsg (js "a") (js "done") = placeholderResponse tc)).
Proof.
  apply (fixToolCallsMessages_responses_come_from_calls responseBeforeCall
           (toolMsg (js "a") (js "done"))).
  - apply list_elem_of_In. vm_compute. right. left. reflexivity.
  - reflexivity.
Defined.

(** ** Capability table and budget *)

Lemma prototype_keys_not_own :
  Forall (fun key => ownProperty key = None) objectPrototypeKeys.
Proof. repeat constructor. Qed.

(** X10. Reading the table gives something that is not a number exactly
    for the property names inherited from [Object.prototype]; for such a
    model name the budget is [NaN] and [needsTruncation] answers false
    whatever the conversation. *)
Theorem inherited_names_have_no_budget (model : jsstring) :
  (getModelContextLimit model = Inherited <-> model ∈ objectPrototypeKeys)
  /\ (model ∈ objectPrototypeKeys ->
      getDynamicTargetLimit model = NaN
      /\ forall messages, needsTruncation messages model = false).
Proof.
  assert (Hiff : getModelContextLimit model = Inherited <-> model ∈ objectPrototypeKeys).
  { unfold getModelContextLimit. split.
    - destruct (ownProperty model); [done|]. case_bool_decide; [done|].
      by destruct (firstPrefixEntry model) as [[? ?]|].
    - intros Hin. pose proof prototype_keys_not_own as Hown.
      rewrite Forall_forall in Hown. rewrite (Hown _ Hin).
      by rewrite bool_decide_eq_true_2. }
  split; [done|]. intros Hin. apply Hiff in Hin.
  assert (Hnan : getDynamicTargetLimit model = NaN)
    by (unfold getDynamicTargetLimit; by rewrite Hin).
  split; [done|]. intros messages. unfold needsTruncation. rewrite Hnan.
  generalize 0. induction messages as [|m ms IH]; intros acc; simpl; [done|]. apply IH.
Qed.

(** X11. For a model with a numeric limit [c] the budget is
    [c - max (floor (15 c / 100)) 4096] in exact integer arithmetic: the
    binary64 product [c * 0.15] rounds to the same floor for every limit
    the table and the family patterns can give. The budget is at least
    4096 and leaves at least 4096 tokens for the answer. *)
Theorem getDynamicTargetLimit_exact (model : jsstring) (c : Z) :
  getModelContextLimit model = Limit c ->
  getDynamicTargetLimit model = Tokens (c - Z.max (c * 15 / 100) 4096)
  /\ 4096 <= c - Z.max (c * 15 / 100) 4096 <= c - 4096.
Proof.
  intros Hc. unfold getDynamicTargetLimit. rewrite Hc.
  apply getModelContextLimit_range in Hc.
  repeat (apply elem_of_cons in Hc as [->|Hc]; [by vm_compute|]).
  by apply elem_of_nil in Hc.
Qed.

Lemma getDynamicTargetLimit_exact_witness :
  getDynamicTargetLimit (js "gpt-4-32k") = Tokens (32768 - Z.max (32768 * 15 / 100) 4096)
  /\ 4096 <= 32768 - Z.max (32768 * 15 / 100) 4096 <= 32768 - 4096.
Proof.
  apply (getDynamicTargetLimit_exact (js "gpt-4-32k") 32768). reflexivity.
Defined.

(** ** Token estimate *)

(** X12. The estimate is monotone: a message with at least as many
    counted characters and at least as many image parts as another is
    estimated at least as high. *)
Theorem estimateMessageTokens_monotone (m m' : Message) :
  countedChars m <= countedChars m' ->
  imageParts m <= imageParts m' ->
  estimateMessageTokens m <= estimateMessageTokens m'.
Proof.
  intros Hc Hi. unfold estimateMessageTokens. rewrite !messageText_length.
  assert ((countedChars m + 512 * imageParts m + 3) / 4
          <= (countedChars m' + 512 * imageParts m' + 3) / 4)
    by (apply Z.div_le_mono; lia).
  lia.
Qed.

Lemma estimateMessageTokens_monotone_witness :
  estimateMessageTokens (userMsg "hi") <= estimateMessageTokens (userMsg "hello").
Proof.
  apply (estimateMessageTokens_monotone (userMsg "hi") (userMsg "hello"));
    vm_compute; discriminate.
Defined.

(** ** Model name translator *)

Lemma startsWith_prefix (s p : jsstring) :
  startsWith s p = true -> exists rest, s = p ++ rest.
Proof.
  revert s. induction p as [|c p IH]; intros s Hs; simpl in Hs.
  - by exists s.
  - destruct s as [|d s]; [done|].
    apply andb_prop in Hs as [Hc Hs]. apply N.eqb_eq in Hc as ->.
    destruct (IH s Hs) as [rest ->]. by exists rest.
Qed.

Lemma endsWith_suffix (s p : jsstring) :
  endsWith s p = true -> exists front, s = front ++ p.
Proof.
  unfold endsWith. intros Hs. apply startsWith_prefix in Hs as [rest Hrest].
  exists (rev rest). apply (f_equal (@rev N)) in Hrest.
  by rewrite rev_involutive, rev_app_distr, rev_involutive in Hrest.
Qed.

Lemma slice_drop_last (s : jsstring) k :
  0 < k ->
  slice s 0 (Some (- k)) = take (length s - Z.to_nat k) s.
Proof.
  intros Hk. unfold slice.
  assert (Hfrom : sliceIndex (Z.of_nat (length s)) 0 = 0).
  { unfold sliceIndex. rewrite Z.ltb_irrefl. lia. }
  assert (Hto : Z.to_nat (sliceIndex (Z.of_nat (length s)) (- k) - 0)
                = (length s - Z.to_nat k)%nat).
  { unfold sliceIndex. destruct (Z.ltb_spec (- k) 0); lia. }
  cbv zeta. rewrite Hfrom, Hto. change (Z.to_nat 0) with 0%nat. by rewrite drop_0.
Qed.

Section TranslatorFacts.

Variable toLowerCase : jsstring -> jsstring.

Lemma translateModelName_strip_rule model :
  toLowerCase model = asciiLower model ->
  endsWith (asciiLower model) (js "-codex") = true ->
  exists suffix,
    model = slice model 0 (Some (-6)) ++ suffix
    /\ length suffix = 6%nat
    /\ asciiLower suffix = js "-codex".
Proof.
  intros _ Hends. apply endsWith_suffix in Hends as [front Hfront].
  assert (Hlen : (length model = length front + 6)%nat).
  { apply (f_equal (@length N)) in Hfront.
    unfold asciiLower in Hfront. rewrite length_map, length_app in Hfront.
    exact Hfront. }
  change (Z.neg 6) with (Z.opp (Z.pos 6)).
  rewrite (slice_drop_last model 6) by lia.
  exists (drop (length model - Z.to_nat 6) model).
  split; [by rewrite take_drop|]. split.
  - rewrite length_drop. lia.
  - unfold asciiLower in *.
    change (List.map ?f ?l) with (f <$> l) in *.
    rewrite fmap_drop, Hfront.
    replace (length model - Z.to_nat 6)%nat with (length front) by lia.
    by rewrite drop_app_length.
Qed.

End TranslatorFacts.

(** X13. The translator changes a name exactly when one of its rules
    applies (for a name on which [toLowerCase] is the ASCII lower-casing):
    a name that starts with none of the three claude-4 family prefixes,
    is not a gpt 5.1 codex name and is not a gpt name ending in [-codex]
    passes through unchanged, and every other name is rewritten to a
    different one. *)
Theorem translateModelName_changes_iff_rule_applies
    (toLowerCase : jsstring -> jsstring) (model : jsstring) :
  toLowerCase model = asciiLower model ->
  (translateModelName toLowerCase model = model
   <-> startsWith model (js "claude-sonnet-4-") = false
       /\ startsWith model (js "claude-opus-4-") = false
       /\ startsWith model (js "claude-haiku-4-") = false
       /\ (includes (asciiLower model) (js "gpt")
           && includes (asciiLower model) (js "5.1")
           && includes (asciiLower model) (js "codex")) = false
       /\ (includes (asciiLower model) (js "gpt")
           && endsWith (asciiLower model) (js "-codex")) = false).
Proof.
  intros Hlower. unfold translateModelName. rewrite Hlower. split.
  - destruct (startsWith model (js "claude-sonnet-4-")) eqn:H1.
    { intros Heq. rewrite <- Heq in H1. by vm_compute in H1. }
    destruct (startsWith model (js "claude-opus-4-")) eqn:H2.
    { intros Heq. rewrite <- Heq in H2. by vm_compute in H2. }
    destruct (startsWith model (js "claude-haiku-4-")) eqn:H3.
    { intros Heq. rewrite <- Heq in H3. by vm_compute in H3. }
    destruct (includes (asciiLower model) (js "gpt")
              && includes (asciiLower model) (js "5.1")
              && includes (asciiLower model) (js "codex")) eqn:H4.
    { intros Heq. rewrite <- Heq in H4. by vm_compute in H4. }
    destruct (includes (asciiLower model) (js "gpt")
              && endsWith (asciiLower model) (js "-codex")) eqn:H5; [|done].
    intros Heq. exfalso.
    apply andb_prop in H5 as [Hgpt Hends].
    apply (f_equal (@length N)) in Heq.
    change (Z.neg 6) with (Z.opp (Z.pos 6)) in Heq.
    rewrite (slice_drop_last model 6), length_take in Heq by lia.
    destruct model as [|c model]; [by vm_compute in Hgpt|]. simpl in Heq. lia.
  - intros (-> & -> & -> & -> & ->). done.
Qed.

Lemma translateModelName_changes_iff_rule_applies_witness :
  translateModelName asciiLower (js "gemini-2.5-pro") = js "gemini-2.5-pro"
  <-> startsWith (js "gemini-2.5-pro") (js "claude-sonnet-4-") = false
      /\ startsWith (js "gemini-2.5-pro") (js "claude-opus-4-") = false
      /\ startsWith (js "gemini-2.5-pro") (js "claude-haiku-4-") = false
      /\ (includes (asciiLower (js "gemini-2.5-pro")) (js "gpt")
          && includes (asciiLower (js "gemini-2.5-pro")) (js "5.1")
          && includes (asciiLower (js "gemini-2.5-pro")) (js "codex")) = false
      /\ (includes (asciiLower (js "gemini-2.5-pro")) (js "gpt")
          && endsWith (asciiLower (js "gemini-2.5-pro")) (js "-codex")) = false.
Proof.
  apply (translateModelName_changes_iff_rule_applies asciiLower (js "gemini-2.5-pro")).
  reflexivity.
Defined.

(** X14. When the [-codex] rule is the one that applies, the translator
    removes exactly the last six code units of the name, and these are
    [-codex] in some letter case; the rest of the name is kept as written. *)
Theorem translateModelName_strips_codex_suffix
    (toLowerCase : jsstring -> jsstring) (model : jsstring) :
  toLowerCase model = asciiLower model ->
  startsWith model (js "claude-sonnet-4-") = false ->
  startsWith model (js "claude-opus-4-") = false ->
  startsWith model (js "claude-haiku-4-") = false ->
  includes (asciiLower model) (js "5.1") = false ->
  includes (asciiLower model) (js "gpt") = true ->
  endsWith (asciiLower model) (js "-codex") = true ->
  exists suffix,
    model = translateModelName toLowerCase model ++ suffix
    /\ length suffix = 6%nat
    /\ asciiLower suffix = js "-codex".
Proof.
  intros Hlower H1 H2 H3 H51 Hgpt Hends.
  unfold translateModelName. rewrite Hlower, H1, H2, H3, H51, Hgpt, Hends.
  rewrite andb_false_r. cbn [andb].
  by apply (translateModelName_strip_rule toLowerCase).
Qed.

Lemma translateModelName_strips_codex_suffix_witness :
  exists suffix,
    js "GPT-5.2-Codex" = translateModelName asciiLower (js "GPT-5.2-Codex") ++ suffix
    /\ length suffix = 6%nat
    /\ asciiLower suffix = js "-codex".
Proof.
  apply (translateModelName_strips_codex_suffix asciiLower (js "GPT-5.2-Codex"));
    reflexivity.
Defined.

(** ** Budget fitter: the three ways out *)

Lemma selectKept_count_fold items (mustKeep keepRegular : gset nat) result removed :
  let st :=
    fold_left
      (fun st item =>
         let '(result, removedCount) := st in
         if has mustKeep (Item.index item) || has keepRegular (Item.index item)
         then (result ++ [item], removedCount)
         else (result, S removedCount))
      items (result, removed) in
  (length st.1 + st.2 = length result + removed + length items)%nat.
Proof.
  revert result removed. induction items as [|it items IH]; intros result removed; simpl.
  - lia.
  - destruct (has mustKeep (Item.index it) || has keepRegular (Item.index it)).
    + specialize (IH (result ++ [it]) removed). simpl in IH.
      rewrite length_app in IH. simpl in IH. lia.
    + specialize (IH result (S removed)). simpl in IH. lia.
Qed.

Lemma selectKept_count items mustKeep keepRegular :
  (selectKept items mustKeep keepRegular).2
  = (length items - length (selectKept items mustKeep keepRegular).1)%nat.
Proof.
  pose proof (selectKept_count_fold items mustKeep keepRegular [] 0%nat) as H.
  unfold selectKept. simpl in *. lia.
Qed.

Lemma filter_length_le {A} (p : A -> bool) l :
  (length (List.filter p l) <= length l)%nat.
Proof. induction l as [|x l IH]; simpl; [lia|]. destruct (p x); simpl; lia. Qed.

(** The result of the fitter on each of its three paths. *)
Lemma truncateTo_cases messages target :
  let r := truncateTo messages target in
  let compressed := compressedItems messages in
  let kept := List.filter (selectionKeeps compressed target) compressed in
  TruncationResult.originalTokens r = getTotalTokens messages
  /\ ((leTarget (getTotalTokens messages) target = true
       /\ TruncationResult.messages r = messages
       /\ TruncationResult.truncatedTokens r = getTotalTokens messages
       /\ TruncationResult.removedCount r = 0%nat
       /\ TruncationResult.compressedCount r = 0%nat)
      \/ (leTarget (getTotalTokens messages) target = false
          /\ leTarget (sumTokens compressed) target = true
          /\ TruncationResult.messages r = List.map Item.msg compressed
          /\ TruncationResult.truncatedTokens r = sumTokens compressed
          /\ TruncationResult.removedCount r = 0%nat)
      \/ (leTarget (getTotalTokens messages) target = false
          /\ leTarget (sumTokens compressed) target = false
          /\ TruncationResult.messages r = List.map Item.msg kept
          /\ TruncationResult.truncatedTokens r = sumTokens kept
          /\ TruncationResult.removedCount r
             = (length compressed - length kept)%nat)).
Proof.
  cbv zeta. unfold truncateTo. fold (getTotalTokens messages).
  destruct (leTarget (getTotalTokens messages) target) eqn:Hfits.
  { split; [done|]. left. done. }
  destruct (compressPass (categorize messages)) as [compressed compressedCount] eqn:Hpass.
  assert (compressed = compressedItems messages) as ->
    by (unfold compressedItems; by rewrite Hpass).
  destruct (leTarget (sumTokens (compressedItems messages)) target) eqn:Hfits2.
  { split; [done|]. right. left. done. }
  pose proof (selectKept_eq (compressedItems messages)
                (mustKeepSet (compressedItems messages))
                (keepRegularSet (compressedItems messages)
                   (mustKeepSet (compressedItems messages))
                   (subTarget target
                      (mustKeepTokensOf (compressedItems messages)
                         (mustKeepSet (compressedItems messages)))))) as Hsel.
  pose proof (selectKept_count (compressedItems messages)
                (mustKeepSet (compressedItems messages))
                (keepRegularSet (compressedItems messages)
                   (mustKeepSet (compressedItems messages))
                   (subTarget target
                      (mustKeepTokensOf (compressedItems messages)
                         (mustKeepSet (compressedItems messages)))))) as Hcount.
  destruct (selectKept _ _ _) as [result removedCount]. simpl in Hsel, Hcount.
  fold (selectionKeeps (compressedItems messages) target) in Hsel.
  assert (Hsorted : sortByIndex result = result).
  { apply sortByIndex_sorted. rewrite Hsel.
    destruct (filter_positions (fun _ _ => True)
                (selectionKeeps (compressedItems messages) target)
                (compressedItems messages) 0%nat) as (Hs & _ & _); [|done].
    intros i it Hit. split; [|done]. by apply (compressedItems_indexed messages). }
  rewrite Hsorted. cbn [TruncationResult.messages TruncationResult.originalTokens
    TruncationResult.truncatedTokens TruncationResult.removedCount].
  split; [done|]. right. right. rewrite <- Hsel. done.
Qed.

(** ** Budget fitter: the report *)

Lemma fold_sum_shift {A} (f : A -> Z) l acc :
  fold_left (fun sum x => sum + f x) l acc
  = acc + foldr (fun x sum => f x + sum) 0 l.
Proof.
  revert acc. induction l as [|x l IH]; intros acc; simpl; [lia|].
  rewrite IH. lia.
Qed.

Lemma sumTokens_tokensWhere items :
  sumTokens items = tokensWhere (fun _ => true) items.
Proof.
  unfold sumTokens, tokensWhere. rewrite fold_sum_shift.
  induction items as [|it items IH]; simpl; lia.
Qed.

Lemma tokensWhere_filter P items :
  tokensWhere (fun _ => true) (List.filter P items) = tokensWhere P items.
Proof.
  unfold tokensWhere. induction items as [|it items IH]; simpl; [done|].
  destruct (P it); simpl; by rewrite IH.
Qed.

Lemma getTotalTokens_msgs items :
  Forall (fun it => Item.tokens it = estimateMessageTokens (Item.msg it)) items ->
  getTotalTokens (List.map Item.msg items) = sumTokens items.
Proof.
  intros Hall. unfold getTotalTokens, sumTokens. rewrite !fold_sum_shift. f_equal.
  induction Hall as [|it items Hit _ IH]; simpl; [done|]. by rewrite Hit, IH.
Qed.

Lemma compressItem_tokens it :
  Item.tokens it = estimateMessageTokens (Item.msg it) ->
  Item.tokens (compressItem it).1 = estimateMessageTokens (Item.msg (compressItem it).1)
  /\ Item.tokens (compressItem it).1 <= Item.tokens it.
Proof.
  intros Hit. unfold compressItem.
  destruct (isTool (Item.msg it) && (8000 <? Item.tokens it)); simpl; [|lia].
  destruct (Z.ltb_spec (estimateMessageTokens (compressToolResult (Item.msg it) 8000))
              (Item.tokens it)); simpl; lia.
Qed.

Lemma categorize_tokens messages :
  Forall (fun it => Item.tokens it = estimateMessageTokens (Item.msg it))
    (categorize messages).
Proof.
  apply Forall_forall. intros it Hin. apply list_elem_of_lookup in Hin as [i Hi].
  unfold categorize in Hi. rewrite list_lookup_imap in Hi.
  destruct (messages !! i) as [m|]; simpl in Hi; [|done].
  by injection Hi as <-.
Qed.

Lemma compressedItems_tokens messages :
  Forall (fun it => Item.tokens it = estimateMessageTokens (Item.msg it))
    (compressedItems messages).
Proof.
  rewrite compressedItems_eq.
  pose proof (categorize_tokens messages) as Hall.
  induction Hall as [|it items Hit _ IH]; simpl; constructor; [|done].
  by apply compressItem_tokens.
Qed.

Lemma categorize_msgs messages : List.map Item.msg (categorize messages) = messages.
Proof.
  unfold categorize. apply list_eq. intros i.
  change (List.map ?f ?l) with (f <$> l).
  rewrite list_lookup_fmap, list_lookup_imap. by destruct (messages !! i).
Qed.

Lemma compressedItems_sum_le messages :
  sumTokens (compressedItems messages) <= getTotalTokens messages.
Proof.
  rewrite <- (categorize_msgs messages) at 2.
  rewrite (getTotalTokens_msgs _ (categorize_tokens messages)).
  rewrite compressedItems_eq, !sumTokens_tokensWhere. unfold tokensWhere.
  pose proof (categorize_tokens messages) as Hall.
  induction Hall as [|it items Hit _ IH]; simpl; [lia|].
  destruct (compressItem_tokens it Hit) as [_ Hle]. lia.
Qed.

Lemma tokensWhere_le_all P items :
  Forall (fun it => 0 <= Item.tokens it) items ->
  tokensWhere P items <= tokensWhere (fun _ => true) items.
Proof.
  unfold tokensWhere. induction 1 as [|it items Hit _ IH]; simpl; [lia|].
  destruct (P it); lia.
Qed.

Lemma compressedItems_tokens_nonneg messages :
  Forall (fun it => 0 <= Item.tokens it) (compressedItems messages).
Proof.
  eapply Forall_impl; [apply compressedItems_tokens|]. simpl.
  intros it ->. pose proof (estimateMessageTokens_pos (Item.msg it)). lia.
Qed.

Lemma Forall_filter_list {A} (Q : A -> Prop) (p : A -> bool) l :
  Forall Q l -> Forall Q (List.filter p l).
Proof.
  induction 1 as [|x l Hx _ IH]; simpl; [constructor|].
  destruct (p x); [by constructor|done].
Qed.

(** X15. What the fitter reports is what it did: [originalTokens] is the
    total estimate of the input and [truncatedTokens] that of the output,
    which is never higher; [removedCount] is the number of messages by
    which the output is shorter than the input. *)
Theorem truncateMessagesSmart_report
    (messages : list Message) (model : jsstring) (targetTokens : option Target) :
  let r := truncateMessagesSmart messages model targetTokens in
  TruncationResult.originalTokens r = getTotalTokens messages
  /\ TruncationResult.truncatedTokens r
     = getTotalTokens (TruncationResult.messages r)
  /\ TruncationResult.truncatedTokens r <= TruncationResult.originalTokens r
  /\ (length (TruncationResult.messages r) <= length messages)%nat
  /\ TruncationResult.removedCount r
     = (length messages - length (TruncationResult.messages r))%nat.
Proof.
  cbv zeta. unfold truncateMessagesSmart.
  destruct (truncateTo_cases messages (resolveTarget model targetTokens))
    as (Horig & [Hcase|[Hcase|Hcase]]).
  - destruct Hcase as (_ & -> & -> & -> & _). rewrite Horig.
    repeat split; lia.
  - destruct Hcase as (_ & _ & -> & -> & ->). rewrite Horig.
    rewrite (getTotalTokens_msgs _ (compressedItems_tokens messages)).
    rewrite length_map, compressedItems_length.
    pose proof (compressedItems_sum_le messages). repeat split; lia.
  - destruct Hcase as (_ & _ & -> & -> & ->). rewrite Horig.
    rewrite (getTotalTokens_msgs _
               (Forall_filter_list _ _ _ (compressedItems_tokens messages))).
    rewrite length_map.
    pose proof (filter_length_le
                  (selectionKeeps (compressedItems messages)
                     (resolveTarget model targetTokens))
                  (compressedItems messages)) as Hlen.
    rewrite compressedItems_length in *.
    pose proof (compressedItems_sum_le messages) as Hsum.
    pose proof (tokensWhere_le_all
                  (selectionKeeps (compressedItems messages)
                     (resolveTarget model targetTokens))
                  _ (compressedItems_tokens_nonneg messages)) as Hle.
    rewrite <- tokensWhere_filter, <- !sumTokens_tokensWhere in Hle.
    repeat split; lia.
Qed.

(** ** Budget fitter: the budget *)

Lemma tokensWhere_app P l1 l2 :
  tokensWhere P (l1 ++ l2) = tokensWhere P l1 + tokensWhere P l2.
Proof.
  unfold tokensWhere. induction l1 as [|it l1 IH]; simpl; [lia|].
  destruct (P it); lia.
Qed.

Lemma tokensWhere_rev P l : tokensWhere P (rev l) = tokensWhere P l.
Proof.
  induction l as [|it l IH]; simpl; [done|].
  rewrite tokensWhere_app, IH. unfold tokensWhere. simpl. destruct (P it); lia.
Qed.

Lemma tokensWhere_ext_in P Q l :
  (forall it, it ∈ l -> P it = Q it) -> tokensWhere P l = tokensWhere Q l.
Proof.
  unfold tokensWhere. induction l as [|it l IH]; intros Heq; simpl; [done|].
  rewrite (Heq it) by by left. rewrite IH; [done|].
  intros it' Hin. apply Heq. by right.
Qed.

Lemma tokensWhere_filter_and P Q l :
  tokensWhere P (List.filter Q l) = tokensWhere (fun it => Q it && P it) l.
Proof.
  unfold tokensWhere. induction l as [|it l IH]; simpl; [done|].
  destruct (Q it); simpl; by rewrite IH.
Qed.

Lemma tokensWhere_or_split P Q l :
  tokensWhere (fun it => P it || Q it) l
  = tokensWhere P l + tokensWhere (fun it => negb (P it) && Q it) l.
Proof.
  unfold tokensWhere. induction l as [|it l IH]; simpl; [done|].
  destruct (P it), (Q it); simpl; lia.
Qed.

Lemma mustKeepTokensOf_tokensWhere items (mustKeep : gset nat) :
  mustKeepTokensOf items mustKeep
  = tokensWhere (fun it => has mustKeep (Item.index it)) items.
Proof.
  unfold mustKeepTokensOf, tokensWhere.
  assert (Hgen : forall acc,
    fold_left
      (fun sum item =>
         if has mustKeep (Item.index item) then sum + Item.tokens item else sum)
      items acc
    = acc + foldr (fun item sum =>
                     if has mustKeep (Item.index item)
                     then Item.tokens item + sum else sum) 0 items).
  { induction items as [|it items IH]; intros acc; simpl; [lia|].
    rewrite IH. destruct (has mustKeep (Item.index it)); lia. }
  rewrite Hgen. lia.
Qed.

Lemma NoDup_index_filter (p : Item.t -> bool) l :
  NoDup (List.map Item.index l) -> NoDup (List.map Item.index (List.filter p l)).
Proof.
  induction l as [|it l IH]; simpl; [done|].
  intros [Hnot Hnd]%NoDup_cons. destruct (p it); simpl; [|by apply IH].
  apply NoDup_cons. split; [|by apply IH].
  intros Hin. apply Hnot.
  apply list_elem_of_In, in_map_iff in Hin as (x & Hx & Hin).
  apply filter_In in Hin as [Hin _].
  apply list_elem_of_In, in_map_iff. by exists x.
Qed.

Lemma NoDup_index_rev (l : list Item.t) :
  NoDup (List.map Item.index l) -> NoDup (List.map Item.index (rev l)).
Proof.
  intros Hnd. rewrite map_rev. apply NoDup_ListNoDup, List.NoDup_rev.
  by apply NoDup_ListNoDup.
Qed.

Lemma indexed_NoDup items :
  (forall i it, items !! i = Some it -> Item.index it = i) ->
  NoDup (List.map Item.index items).
Proof.
  intros Hidx.
  assert (List.map Item.index items = seq 0 (length items)) as ->; [|apply NoDup_seq].
  apply list_eq. intros i. change (List.map ?f ?l) with (f <$> l).
  rewrite list_lookup_fmap.
  destruct (items !! i) as [it|] eqn:Hit; simpl.
  - rewrite (Hidx _ _ Hit). symmetry. apply lookup_seq.
    split; [done|]. by eapply lookup_lt_Some.
  - symmetry. apply lookup_seq_ge. by apply lookup_ge_None.
Qed.

Lemma index_injective items it it' :
  NoDup (List.map Item.index items) ->
  it ∈ items -> it' ∈ items -> Item.index it = Item.index it' -> it = it'.
Proof.
  induction items as [|x items IH]; intros Hnd Hin Hin' Heq.
  - by apply elem_of_nil in Hin.
  - simpl in Hnd. apply NoDup_cons in Hnd as [Hnot Hnd].
    apply elem_of_cons in Hin as [->|Hin]; apply elem_of_cons in Hin' as [->|Hin'].
    + done.
    + exfalso. apply Hnot. rewrite Heq.
      apply list_elem_of_In, in_map. by apply list_elem_of_In.
    + exfalso. apply Hnot. rewrite <- Heq.
      apply list_elem_of_In, in_map. by apply list_elem_of_In.
    + by apply IH.
Qed.

(** The greedy walk: what it has used is the sum over the items it kept,
    it keeps only items it walked over, and once it keeps anything the
    sum is within what was available. *)
Lemma greedy_walk availableTokens rs u0 (k0 : gset nat) :
  NoDup (List.map Item.index rs) ->
  (forall it, it ∈ rs -> Item.index it ∉ k0) ->
  let st :=
    fold_left
      (fun st item =>
         let '(usedTokens, keepRegular) := st in
         if leTarget (usedTokens + Item.tokens item) availableTokens
         then (usedTokens + Item.tokens item, {[Item.index item]} ∪ keepRegular)
         else st)
      rs (u0, k0) in
  st.1 = u0 + tokensWhere (fun it => has st.2 (Item.index it)) rs
  /\ (forall i, i ∈ k0 -> i ∈ st.2)
  /\ (forall i, i ∈ st.2 -> i ∈ k0 \/ exists it, it ∈ rs /\ Item.index it = i)
  /\ (st.1 = u0 \/ leTarget st.1 availableTokens = true).
Proof.
  revert u0 k0. induction rs as [|it rs IH]; intros u0 k0 Hnd Hfresh; simpl.
  - unfold tokensWhere. simpl. repeat split; [lia|done|by left|by left].
  - simpl in Hnd. apply NoDup_cons in Hnd as [Hnot Hnd].
    assert (Hother : forall it', it' ∈ rs -> Item.index it' <> Item.index it).
    { intros it' Hin Heq. apply Hnot. rewrite <- Heq.
      apply list_elem_of_In, in_map. by apply list_elem_of_In. }
    destruct (leTarget (u0 + Item.tokens it) availableTokens) eqn:Hfit.
    + destruct (IH (u0 + Item.tokens it) ({[Item.index it]} ∪ k0) Hnd)
        as (Hsum & Hsub & Hmem & Hle).
      { intros it' Hin. apply not_elem_of_union. split.
        - rewrite elem_of_singleton. by apply Hother.
        - apply Hfresh. by right. }
      cbv zeta in *.
      set (st := fold_left _ rs (u0 + Item.tokens it, {[Item.index it]} ∪ k0)) in *.
      split; [|split; [|split]].
      * unfold tokensWhere in *. simpl. unfold has at 1.
        rewrite bool_decide_eq_true_2
          by (apply Hsub, elem_of_union; left; by apply elem_of_singleton).
        lia.
      * intros i Hi. apply Hsub, elem_of_union. by right.
      * intros i Hi. destruct (Hmem i Hi) as [Hin|(it' & Hin & Heq)].
        -- apply elem_of_union in Hin as [Hin|Hin]; [|by left].
           apply elem_of_singleton in Hin as ->. right. exists it. split; [by left|done].
        -- right. exists it'. split; [by right|done].
      * right. destruct Hle as [->|Hle]; done.
    + destruct (IH u0 k0 Hnd) as (Hsum & Hsub & Hmem & Hle).
      { intros it' Hin. apply Hfresh. by right. }
      cbv zeta in *.
      set (st := fold_left _ rs (u0, k0)) in *.
      split; [|split; [|split]].
      * unfold tokensWhere in *. simpl. unfold has at 1.
        rewrite bool_decide_eq_false_2; [lia|].
        intros Hi. destruct (Hmem _ Hi) as [Hin|(it' & Hin & Heq)].
        -- apply (Hfresh it); [by left|done].
        -- by apply (Hother it').
      * done.
      * intros i Hi. destruct (Hmem i Hi) as [Hin|(it' & Hin & Heq)]; [by left|].
        right. exists it'. split; [by right|done].
      * done.
Qed.

(** What the selection pass keeps costs the must-keep set plus what the
    greedy walk used. *)
Lemma selection_cost items (mustKeep : gset nat) availableTokens :
  NoDup (List.map Item.index items) ->
  let keepRegular := keepRegularSet items mustKeep availableTokens in
  exists used,
    tokensWhere
      (fun it => has mustKeep (Item.index it) || has keepRegular (Item.index it)) items
    = mustKeepTokensOf items mustKeep + used
    /\ (used = 0 \/ leTarget used availableTokens = true)
    /\ (forall i, i ∈ keepRegular ->
          exists it, it ∈ items /\ Item.index it = i
                     /\ Item.category it = regular /\ i ∉ mustKeep).
Proof.
  intros Hnd. cbv zeta. unfold keepRegularSet.
  set (q := fun item : Item.t =>
              negb (has mustKeep (Item.index item))
              && bool_decide (Item.category item = regular)).
  set (regs := List.filter q items).
  destruct (greedy_walk availableTokens (rev regs) 0 ∅) as (Hsum & _ & Hmem & Hle).
  { by apply NoDup_index_rev, NoDup_index_filter. }
  { intros it _. apply not_elem_of_empty. }
  cbv zeta in *. set (st := fold_left _ (rev regs) (0, ∅)) in *.
  assert (Hkr : forall i, i ∈ st.2 ->
            exists it, it ∈ items /\ Item.index it = i
                       /\ Item.category it = regular /\ i ∉ mustKeep).
  { intros i Hi. destruct (Hmem i Hi) as [Hin|(it & Hin & Heq)];
      [by apply not_elem_of_empty in Hin|].
    apply list_elem_of_In, in_rev, filter_In in Hin as [Hin Hq].
    apply andb_prop in Hq as [Hmk Hreg].
    exists it. split; [by apply list_elem_of_In|]. split; [done|].
    split; [by apply bool_decide_eq_true in Hreg|].
    rewrite <- Heq. apply negb_true_iff in Hmk. by apply bool_decide_eq_false in Hmk. }
  exists st.1. split; [|split; [|done]].
  - rewrite tokensWhere_or_split, mustKeepTokensOf_tokensWhere. f_equal.
    rewrite Hsum, Z.add_0_l, tokensWhere_rev. unfold regs.
    rewrite tokensWhere_filter_and. apply tokensWhere_ext_in.
    intros it Hin. unfold q.
    destruct (has st.2 (Item.index it)) eqn:Hk; [|by rewrite !andb_false_r].
    rewrite !andb_true_r. apply bool_decide_eq_true in Hk.
    destruct (Hkr _ Hk) as (it' & Hin' & Heq & Hreg & Hmk).
    assert (it' = it) as -> by by eapply index_injective.
    unfold has. rewrite bool_decide_eq_false_2 by done.
    by rewrite bool_decide_eq_true_2.
  - destruct Hle as [->|Hle]; [by left|by right].
Qed.

(** X16. Whenever the must-keep messages (system messages, the last
    round of tool calls, the last user message, after compression) fit
    the budget together, so does the result: its reported estimate and
    the total estimate of its messages are at most the target. *)
Theorem truncateMessagesSmart_within_target
    (messages : list Message) (model : jsstring) (targetTokens : option Target) (t : Z) :
  resolveTarget model targetTokens = Tokens t ->
  mustKeepTokensOf (compressedItems messages) (mustKeepSet (compressedItems messages)) <= t ->
  let r := truncateMessagesSmart messages model targetTokens in
  TruncationResult.truncatedTokens r <= t
  /\ getTotalTokens (TruncationResult.messages r) <= t.
Proof.
  intros Ht Hmust. cbv zeta. unfold truncateMessagesSmart. rewrite Ht.
  destruct (truncateTo_cases messages (Tokens t)) as (_ & [Hcase|[Hcase|Hcase]]).
  - destruct Hcase as (Hle & -> & -> & _). simpl in Hle. apply Z.leb_le in Hle. done.
  - destruct Hcase as (_ & Hle & -> & -> & _). simpl in Hle. apply Z.leb_le in Hle.
    by rewrite (getTotalTokens_msgs _ (compressedItems_tokens messages)).
  - destruct Hcase as (_ & _ & -> & -> & _).
    rewrite (getTotalTokens_msgs _
               (Forall_filter_list _ _ _ (compressedItems_tokens messages))).
    rewrite sumTokens_tokensWhere, tokensWhere_filter.
    destruct (selection_cost (compressedItems messages)
                (mustKeepSet (compressedItems messages))
                (subTarget (Tokens t)
                   (mustKeepTokensOf (compressedItems messages)
                      (mustKeepSet (compressedItems messages)))))
      as (used & Hsum & Hused & _).
    { apply indexed_NoDup, compressedItems_indexed. }
    cbv zeta in Hsum. unfold selectionKeeps. rewrite Hsum.
    destruct Hused as [->|Hle]; [lia|].
    simpl in Hle. apply Z.leb_le in Hle. lia.
Qed.

Lemma truncateMessagesSmart_within_target_witness :
  TruncationResult.truncatedTokens
    (truncateMessagesSmart toolRoundThenUser (js "gpt-4o") (Some (Tokens 20))) <= 20
  /\ getTotalTokens
       (TruncationResult.messages
          (truncateMessagesSmart toolRoundThenUser (js "gpt-4o") (Some (Tokens 20))))
     <= 20.
Proof.
  apply (truncateMessagesSmart_within_target toolRoundThenUser (js "gpt-4o")
           (Some (Tokens 20)) 20).
  - reflexivity.
  - vm_compute. discriminate.
Defined.

(** ** Budget fitter: the ordering invariant survives *)

Lemma fitted_sameShape m o : fitted m o -> sameShape m o.
Proof.
  intros [->|(_ & _ & ->)]; [done|].
  unfold sameShape, compressToolResult. by destruct (_ <=? _).
Qed.

Lemma sameShape_callsOf m o : sameShape m o -> callsOf o = callsOf m.
Proof. intros (Hr & Hc & _). unfold callsOf. by rewrite Hr, Hc. Qed.

Lemma sameShape_response tc m o : sameShape m o -> isResponseTo tc m -> isResponseTo tc o.
Proof. intros (Hr & _ & Hi) [Hrole Hid]. split; congruence. Qed.

Lemma filter_all_true {A} (p : A -> bool) l :
  Forall (fun x => p x = true) l -> List.filter p l = l.
Proof. induction 1 as [|x l Hx _ IH]; simpl; [done|]. by rewrite Hx, IH. Qed.

Lemma filter_all_false {A} (p : A -> bool) l :
  Forall (fun x => p x = false) l -> List.filter p l = [].
Proof. induction 1 as [|x l Hx _ IH]; simpl; [done|]. by rewrite Hx. Qed.

(** Dropping whole rounds, and any other message, from a repaired
    sequence leaves a repaired sequence. *)
Lemma Repaired_filter_items (K : nat -> bool) l :
  Repaired l ->
  forall items off,
  Forall2 (fun m it => sameShape m (Item.msg it)) l items ->
  (forall i it, items !! i = Some it -> Item.index it = (off + i)%nat) ->
  (forall a m j, l !! a = Some m -> (j < length (callsOf m))%nat ->
                 K (off + a + 1 + j)%nat = K (off + a)%nat) ->
  Repaired (List.map Item.msg (List.filter (fun it => K (Item.index it)) items)).
Proof.
  induction 1 as [|m rs rest Hm Hresp Hrest IH]; intros items off HF Hidx Huni.
  - apply Forall2_nil_inv_l in HF as ->. constructor.
  - apply Forall2_cons_inv_l in HF as (it & items' & Hit & HF & ->).
    apply Forall2_app_inv_l in HF as (irs & irest & Hirs & Hirest & ->).
    pose proof (Forall2_length _ _ _ Hresp) as Hlen1.
    pose proof (Forall2_length _ _ _ Hirs) as Hlen2.
    assert (Hi0 : Item.index it = off).
    { rewrite (Hidx 0%nat it eq_refl). lia. }
    assert (Hblock : Forall (fun x => K (Item.index x) = K off) irs).
    { apply Forall_forall. intros x Hx. apply list_elem_of_lookup in Hx as [j Hj].
      rewrite (Hidx (S j) x).
      - replace (off + S j)%nat with (off + 0 + 1 + j)%nat by lia.
        rewrite (Huni 0%nat m j eq_refl); [f_equal; lia|].
        apply lookup_lt_Some in Hj. lia.
      - simpl. by apply lookup_app_l_Some. }
    assert (Hrec : Repaired
              (List.map Item.msg (List.filter (fun it => K (Item.index it)) irest))).
    { apply (IH irest (off + 1 + length rs)%nat Hirest).
      - intros i x Hx. rewrite (Hidx (S (length irs + i)) x).
        + lia.
        + simpl. rewrite lookup_app_r by lia.
          by replace (length irs + i - length irs)%nat with i by lia.
      - intros a x j Hx Hj.
        replace (off + 1 + length rs + a + 1 + j)%nat
          with (off + S (length rs + a) + 1 + j)%nat by lia.
        rewrite (Huni (S (length rs + a)) x j); [f_equal; lia| |done].
        simpl. rewrite lookup_app_r by lia.
        by replace (length rs + a - length rs)%nat with a by lia. }
    simpl. rewrite filter_app_list, Hi0.
    destruct (K off) eqn:HK.
    + rewrite (filter_all_true _ irs)
        by (eapply Forall_impl; [exact Hblock|]; simpl; congruence).
      simpl. rewrite map_app. constructor; [|  |done].
      * destruct Hit as (Hr & _). congruence.
      * rewrite (sameShape_callsOf _ _ Hit).
        clear -Hresp Hirs. revert irs Hirs.
        induction Hresp as [|tc r calls rs Hr _ IHr]; intros irs Hirs.
        -- apply Forall2_nil_inv_l in Hirs as ->. constructor.
        -- apply Forall2_cons_inv_l in Hirs as (ir & irs' & Hir & Hirs & ->).
           simpl. constructor; [by eapply sameShape_response|by apply IHr].
    + rewrite (filter_all_false _ irs)
        by (eapply Forall_impl; [exact Hblock|]; simpl; congruence).
      done.
Qed.

Lemma keepLastUserFrom_spec items n (keep : gset nat) i :
  i ∈ keepLastUserFrom items n keep ->
  i ∈ keep \/ exists j it, items !! j = Some it /\ role (Item.msg it) = user
                           /\ Item.index it = i.
Proof.
  induction n as [|n IH]; simpl; [by left|].
  destruct (items !! n) as [it|] eqn:Hit; [|by left].
  case_bool_decide as Hu; [|done].
  intros [Hin|Hin]%elem_of_union; [|by left].
  apply elem_of_singleton in Hin as ->. right. by exists n, it.
Qed.

Lemma categorizeMessage_tool m : role m = tool -> categorizeMessage m = tool_context.
Proof. unfold categorizeMessage. by intros ->. Qed.

Lemma categorizeMessage_calls m :
  callsOf m <> [] -> categorizeMessage m = tool_context.
Proof.
  unfold callsOf, categorizeMessage. destruct (role m); try done.
  by destruct (tool_calls m) as [[|? ?]|].
Qed.

Lemma categorizeMessage_user m : role m = user -> categorizeMessage m = regular.
Proof. unfold categorizeMessage. by intros ->. Qed.

(** In the selection pass a tool-context message is kept exactly when
    the chain rule takes it. *)
Lemma selectionKeeps_tool_context messages target i it :
  compressedItems messages !! i = Some it ->
  categoryAt messages i = Some tool_context ->
  selectionKeeps (compressedItems messages) target it = true
  <-> (forall j k, (i < j < k)%nat -> categoryAt messages j = Some regular ->
                   categoryAt messages k <> Some tool_context).
Proof.
  intros Hit Hcat. unfold selectionKeeps.
  rewrite (compressedItems_indexed _ _ _ Hit).
  pose proof (indexed_NoDup _ (compressedItems_indexed messages)) as Hnd.
  destruct (selection_cost (compressedItems messages)
              (mustKeepSet (compressedItems messages))
              (subTarget target
                 (mustKeepTokensOf (compressedItems messages)
                    (mustKeepSet (compressedItems messages)))) Hnd)
    as (_ & _ & _ & Hkr).
  cbv zeta in Hkr.
  assert (Hpos : forall x, x ∈ compressedItems messages -> Item.index x = i ->
            Item.category x = tool_context).
  { intros x Hx Hxi. apply list_elem_of_lookup in Hx as [j Hj].
    rewrite (compressedItems_indexed _ _ _ Hj) in Hxi. subst j.
    pose proof (compressedItems_category messages i) as Hc.
    rewrite Hj, Hcat in Hc. by injection Hc. }
  split.
  - intros [Hmk|Hk]%orb_prop.
    + apply bool_decide_eq_true in Hmk. unfold mustKeepSet in Hmk.
      apply keepLastUserFrom_spec in Hmk as [Hmk|(j & x & Hx & Hu & Hxi)].
      * apply keepToolChain_messages in Hmk as [Hsys|[_ Hchain]]; [|done].
        apply keepSystem_spec in Hsys as [Hin|(x & Hx & Hsys & Hxi)];
          [by apply not_elem_of_empty in Hin|].
        rewrite (Hpos x Hx Hxi) in Hsys. discriminate.
      * pose proof Hx as Hx'.
        apply compressedItems_lookup in Hx' as (m & _ & _ & Hc & Hrole & _).
        rewrite (Hpos x) in Hc; [|by eapply list_elem_of_lookup_2|done].
        rewrite categorizeMessage_user in Hc by congruence. discriminate.
    + apply bool_decide_eq_true in Hk.
      destruct (Hkr _ Hk) as (x & Hx & Hxi & Hreg & _).
      rewrite (Hpos x Hx Hxi) in Hreg. discriminate.
  - intros Hchain. apply orb_true_intro. left. apply bool_decide_eq_true.
    unfold mustKeepSet. apply keepLastUserFrom_mono.
    apply keepToolChain_messages. right. done.
Qed.

(** Within one round of a repaired conversation the selection pass
    keeps all messages or none. *)
Lemma selectionKeeps_round messages target a m j ia ij :
  OrderingInvariant messages ->
  messages !! a = Some m -> (j < length (callsOf m))%nat ->
  compressedItems messages !! a = Some ia ->
  compressedItems messages !! (a + 1 + j)%nat = Some ij ->
  selectionKeeps (compressedItems messages) target ij
  = selectionKeeps (compressedItems messages) target ia.
Proof.
  intros [H1 _] Hm Hj Hia Hij.
  assert (Hasst : role m = assistant).
  { unfold callsOf in Hj. destruct (role m); simpl in Hj; try lia. done. }
  destruct (H1 a m Hm Hasst) as [Hblock _].
  assert (Hcata : categoryAt messages a = Some tool_context).
  { unfold categoryAt. rewrite Hm. simpl. f_equal.
    apply categorizeMessage_calls. intros Hnil. rewrite Hnil in Hj. simpl in Hj. lia. }
  assert (Hround : forall j', (j' < length (callsOf m))%nat ->
            categoryAt messages (a + 1 + j') = Some tool_context).
  { intros j' Hj'. destruct (lookup_lt_is_Some_2 (callsOf m) j' Hj') as [tc Htc].
    destruct (Hblock j' tc Htc) as (r & Hr & Hrole & _).
    unfold categoryAt. rewrite Hr. simpl. f_equal. by apply categorizeMessage_tool. }
  apply eq_true_iff_eq.
  rewrite (selectionKeeps_tool_context messages target _ _ Hij (Hround j Hj)).
  rewrite (selectionKeeps_tool_context messages target _ _ Hia Hcata).
  split.
  - intros Hchain j0 k Hjk Hreg.
    destruct (decide (j0 <= a + length (callsOf m))%nat) as [Hin|Hout].
    + assert (Hc := Hround (j0 - a - 1)%nat ltac:(lia)).
      replace (a + 1 + (j0 - a - 1))%nat with j0 in Hc by lia. congruence.
    + apply (Hchain j0 k); [lia|done].
  - intros Hchain j0 k Hjk Hreg. apply (Hchain j0 k); [lia|done].
Qed.

Lemma compressedItems_sameShape messages :
  Forall2 (fun m it => sameShape m (Item.msg it)) messages (compressedItems messages).
Proof.
  apply Forall2_same_length_lookup_2; [by rewrite compressedItems_length|].
  intros i m it Hm Hit.
  apply compressedItems_lookup in Hit as (m' & Hm' & _ & _ & _ & Hf).
  rewrite Hm in Hm'. injection Hm' as <-. by apply fitted_sameShape.
Qed.

Lemma truncateTo_Repaired messages target :
  OrderingInvariant messages ->
  Repaired (TruncationResult.messages (truncateTo messages target)).
Proof.
  intros Hinv. pose proof (OrderingInvariant_Repaired _ Hinv) as Hrep.
  destruct (truncateTo_cases messages target) as (_ & [Hcase|[Hcase|Hcase]]).
  - by destruct Hcase as (_ & -> & _).
  - destruct Hcase as (_ & _ & -> & _).
    rewrite <- (filter_true (compressedItems messages)).
    apply (Repaired_filter_items (fun _ => true) messages Hrep _ 0%nat).
    + apply compressedItems_sameShape.
    + intros i it Hit. by apply (compressedItems_indexed messages).
    + done.
  - destruct Hcase as (_ & _ & -> & _).
    set (K := fun i : nat =>
                match compressedItems messages !! i with
                | Some it => selectionKeeps (compressedItems messages) target it
                | None => false
                end).
    assert (Hfilter :
      List.filter (selectionKeeps (compressedItems messages) target)
        (compressedItems messages)
      = List.filter (fun it => K (Item.index it)) (compressedItems messages)).
    { apply filter_ext_in. intros it Hin.
      apply list_elem_of_In, list_elem_of_lookup in Hin as [i Hi].
      unfold K. by rewrite (compressedItems_indexed _ _ _ Hi), Hi. }
    rewrite Hfilter.
    apply (Repaired_filter_items K messages Hrep _ 0%nat).
    + apply compressedItems_sameShape.
    + intros i it Hit. by apply (compressedItems_indexed messages).
    + intros a m j Hm Hj. simpl. unfold K.
      destruct (lookup_lt_is_Some_2 (compressedItems messages) a) as [ia Hia].
      { rewrite compressedItems_length. by eapply lookup_lt_Some. }
      rewrite Hia.
      destruct (compressedItems messages !! (a + 1 + j)%nat) as [ij|] eqn:Hij.
      * by eapply selectionKeeps_round.
      * exfalso. apply lookup_ge_None in Hij. rewrite compressedItems_length in Hij.
        destruct Hinv as [H1 _].
        assert (Hasst : role m = assistant).
        { unfold callsOf in Hj. destruct (role m); simpl in Hj; try lia. done. }
        destruct (H1 a m Hm Hasst) as [Hblock _].
        destruct (lookup_lt_is_Some_2 (callsOf m) j Hj) as [tc Htc].
        destruct (Hblock j tc Htc) as (r & Hr & _).
        apply lookup_lt_Some in Hr. lia.
Qed.

(** X17. The fitter keeps the repairer's ordering invariant: on a
    conversation in which every assistant message is followed by exactly
    the responses to its calls, the result is again such a conversation.
    Of a round of tool calls the selection pass keeps all messages or
    none, and compression leaves roles, calls and ids alone. *)
Theorem truncateMessagesSmart_keeps_ordering
    (messages : list Message) (model : jsstring) (targetTokens : option Target) :
  OrderingInvariant messages ->
  OrderingInvariant
    (TruncationResult.messages (truncateMessagesSmart messages model targetTokens)).
Proof.
  intros Hinv. unfold truncateMessagesSmart.
  by apply Repaired_OrderingInvariant, truncateTo_Repaired.
Qed.

Lemma toolRoundThenUser_ordered : OrderingInvariant toolRoundThenUser.
Proof.
  apply Repaired_OrderingInvariant. unfold toolRoundThenUser.
  apply (Repaired_cons _ [_] (_ :: _)); [done|by repeat constructor|].
  apply (Repaired_cons _ [] (_ :: _)); [done|constructor|].
  apply (Repaired_cons _ [] []); [done|constructor|constructor].
Qed.

Lemma truncateMessagesSmart_keeps_ordering_witness :
  OrderingInvariant
    (TruncationResult.messages
       (truncateMessagesSmart toolRoundThenUser (js "gpt-4o") (Some (Tokens 0)))).
Proof.
  apply (truncateMessagesSmart_keeps_ordering toolRoundThenUser (js "gpt-4o")
           (Some (Tokens 0))).
  apply toolRoundThenUser_ordered.
Defined.

(** X18. When the conversation is still over budget after compression,
    the result is the compressed conversation without the messages the
    selection pass drops, and of the tool-context messages the pass keeps
    exactly those of the last round: a tool-context message with a
    regular message between it and a later tool-context message is
    dropped whatever the budget. *)
Theorem truncateMessagesSmart_drops_older_tool_rounds
    (messages : list Message) (model : jsstring) (targetTokens : option Target) :
  let target := resolveTarget model targetTokens in
  let compressed := compressedItems messages in
  leTarget (sumTokens compressed) target = false ->
  TruncationResult.messages (truncateMessagesSmart messages model targetTokens)
  = List.map Item.msg (List.filter (selectionKeeps compressed target) compressed)
  /\ forall i it,
       compressed !! i = Some it ->
       categoryAt messages i = Some tool_context ->
       (selectionKeeps compressed target it = true
        <-> forall j k, (i < j < k)%nat -> categoryAt messages j = Some regular ->
                        categoryAt messages k <> Some tool_context).
Proof.
  cbv zeta. intros Hover. split.
  - unfold truncateMessagesSmart.
    destruct (truncateTo_cases messages (resolveTarget model targetTokens))
      as (_ & [Hcase|[Hcase|Hcase]]).
    + destruct Hcase as (Hle & _). exfalso.
      pose proof (compressedItems_sum_le messages) as Hsum.
      destruct (resolveTarget model targetTokens) as [t|]; simpl in *; [|done].
      apply Z.leb_le in Hle. apply Z.leb_gt in Hover. lia.
    + destruct Hcase as (_ & Hle & _). congruence.
    + by destruct Hcase as (_ & _ & -> & _).
  - intros i it Hit Hcat. by apply selectionKeeps_tool_context.
Qed.

Lemma truncateMessagesSmart_drops_older_tool_rounds_witness :
  List.map role
    (TruncationResult.messages
       (truncateMessagesSmart twoToolRounds (js "gpt-4o") (Some (Tokens 32))))
  = [user; assistant; tool; user].
Proof.
  destruct (truncateMessagesSmart_drops_older_tool_rounds twoToolRounds (js "gpt-4o")
              (Some (Tokens 32))) as [-> _].
  - by vm_compute.
  - by vm_compute.
Defined.

(** ** The pipeline *)

Lemma truncateTo_sameShape messages target o :
  o ∈ TruncationResult.messages (truncateTo messages target) ->
  exists m, m ∈ messages /\ sameShape m o.
Proof.
  assert (Hitem : forall it, it ∈ compressedItems messages ->
            exists m, m ∈ messages /\ sameShape m (Item.msg it)).
  { intros it Hin. apply list_elem_of_lookup in Hin as [i Hi].
    apply compressedItems_lookup in Hi as (m & Hm & _ & _ & _ & Hf).
    exists m. split; [by eapply list_elem_of_lookup_2|by apply fitted_sameShape]. }
  destruct (truncateTo_cases messages target) as (_ & [Hcase|[Hcase|Hcase]]).
  - destruct Hcase as (_ & -> & _). intros Hin. by exists o.
  - destruct Hcase as (_ & _ & -> & _). intros Hin.
    apply list_elem_of_In, in_map_iff in Hin as (it & <- & Hin).
    apply Hitem. by apply list_elem_of_In.
  - destruct Hcase as (_ & _ & -> & _). intros Hin.
    apply list_elem_of_In, in_map_iff in Hin as (it & <- & Hin).
    apply filter_In in Hin as [Hin _]. apply Hitem. by apply list_elem_of_In.
Qed.

Lemma SanitizedIds_sameShape l l' :
  SanitizedIds l ->
  (forall o, o ∈ l' -> exists m, m ∈ l /\ sameShape m o) ->
  SanitizedIds l'.
Proof.
  intros Hsan Hshape o Ho. destruct (Hshape o Ho) as (m & Hm & Hs).
  destruct (Hsan m Hm) as [Hcalls Hid]. destruct Hs as (Hr & Hc & Hi).
  split.
  - intros tc Htc. apply Hcalls. unfold callsOf in *. by rewrite <- Hr, <- Hc.
  - intros i Hrole Htid. apply Hid; congruence.
Qed.

Lemma fixToolCallsMessages_SanitizedIds l :
  (forall m, m ∈ l ->
     (forall tc, tc ∈ callsOf m -> sanitizedId (tc_id tc))
     /\ (forall i, toolResponseId m = Some i -> sanitizedId i)) ->
  SanitizedIds (fixToolCallsMessages l).
Proof.
  intros Hl o Ho. rewrite fixToolCallsMessages_eq in Ho.
  apply list_elem_of_In, in_flat_map in Ho as (a & Ha & Ho).
  apply list_elem_of_In in Ha. destruct (Hl a Ha) as [Hcalls _].
  unfold emitted in Ho. destruct (isTool a) eqn:Ht; [done|].
  unfold isTool in Ht. apply bool_decide_eq_false in Ht.
  destruct Ho as [<-|Ho].
  - split; [done|]. intros i Hr. done.
  - apply in_map_iff in Ho as (tc & <- & Htc). apply list_elem_of_In in Htc.
    destruct (respond_isResponseTo l tc) as [Hr Hid]. split.
    + intros tc'. unfold callsOf. rewrite Hr. intros Hin. by apply elem_of_nil in Hin.
    + intros i _ Hi. rewrite Hid in Hi. injection Hi as <-. by apply Hcalls.
Qed.

(** X19. Whatever the payload, the messages the handler sends on satisfy
    the ordering invariant: every assistant message is followed by
    exactly the responses to its calls, in call order, and no tool
    response stands anywhere else, also after the budget fitter ran. *)
Theorem processPayload_ordering
    (toLowerCase : jsstring -> jsstring) (dateNow : nat -> Z)
    (randomSuffix : nat -> jsstring)
    (model : jsstring) (messages : list Message) (n : nat) :
  OrderingInvariant
    (processPayload toLowerCase dateNow randomSuffix model messages n).1.2.
Proof.
  unfold processPayload, Gen.bind, Gen.ret.
  destruct (sanitizeToolIdsInMessages dateNow randomSuffix messages n)
    as [sanitized n'].
  simpl.
  assert (Hfix : OrderingInvariant (fixToolCallsMessages sanitized)).
  { rewrite fixToolCallsMessages_eq.
    apply Repaired_OrderingInvariant, flat_map_emitted_Repaired. }
  destruct (needsTruncation _ _); [|done].
  unfold truncateMessagesSmart.
  by apply Repaired_OrderingInvariant, truncateTo_Repaired.
Qed.

(** X20. Whatever the payload, in the messages the handler sends on
    every call id of an assistant message and every [tool_call_id] of a
    tool message is non-empty and made of [A-Za-z0-9_-] only (the random
    suffix of a fallback id being so). *)
Theorem processPayload_ids_match_pattern
    (toLowerCase : jsstring -> jsstring) (dateNow : nat -> Z)
    (randomSuffix : nat -> jsstring)
    (model : jsstring) (messages : list Message) (n : nat) :
  (forall k, forallb isIdChar (randomSuffix k) = true) ->
  SanitizedIds (processPayload toLowerCase dateNow randomSuffix model messages n).1.2.
Proof.
  intros Hs. unfold processPayload, Gen.bind, Gen.ret.
  pose proof (sanitized_pass_ids dateNow randomSuffix messages n) as Hpass.
  destruct (sanitizeToolIdsInMessages dateNow randomSuffix messages n)
    as [sanitized n'].
  simpl in *.
  assert (Hfix : SanitizedIds (fixToolCallsMessages sanitized)).
  { apply fixToolCallsMessages_SanitizedIds. intros m Hm. by apply Hpass. }
  destruct (needsTruncation _ _); [|done].
  eapply SanitizedIds_sameShape; [exact Hfix|].
  intros o Ho. by apply truncateTo_sameShape in Ho.
Qed.

Lemma processPayload_ids_match_pattern_witness :
  SanitizedIds
    (processPayload asciiLower sampleClock sampleSuffix (js "gpt-5.2-codex")
       [ assistantMsg [call "!!!" "f"]; toolMsg (js "x y") (js "ok") ] 0%nat).1.2.
Proof.
  apply (processPayload_ids_match_pattern asciiLower sampleClock sampleSuffix
           (js "gpt-5.2-codex")
           [ assistantMsg [call "!!!" "f"]; toolMsg (js "x y") (js "ok") ] 0%nat).
  intros k. destruct k; reflexivity.
Defined.

(** ** Shadowed table entries *)

Lemma startsWith_app_prefix (p rest : jsstring) :
  startsWith (p ++ rest) p = true.
Proof.
  induction p as [|c p IH]; [simpl; by destruct rest|].
  change (startsWith ((c :: p) ++ rest) (c :: p))
    with ((c =? c)%N && startsWith (p ++ rest) p).
  by rewrite N.eqb_refl, IH.
Qed.

Lemma prefix_not_prototype (p rest : jsstring) :
  Forall (fun key => startsWith key p = false) objectPrototypeKeys ->
  p ++ rest ∉ objectPrototypeKeys.
Proof.
  intros HF Hin. rewrite Forall_forall in HF. specialize (HF _ Hin).
  rewrite startsWith_app_prefix in HF. discriminate.
Qed.

Lemma firstPrefixEntry_at k key limit rest :
  MODEL_CONTEXT_LIMITS !! k = Some (key, limit) ->
  key <> js "default" ->
  Forall (fun e => negb (bool_decide (e.1 = js "default"))
                   && startsWith (key ++ rest) e.1 = false)
    (take k MODEL_CONTEXT_LIMITS) ->
  firstPrefixEntry (key ++ rest) = Some (key, limit).
Proof.
  intros Hk Hkey Hpre. unfold firstPrefixEntry.
  rewrite <- (take_drop_middle _ _ _ Hk) at 1.
  apply find_first_match; [done|]. simpl.
  by rewrite bool_decide_eq_false_2, startsWith_app_prefix.
Qed.

(** X21. In the prefix stage an entry whose key extends an earlier key
    never decides. For a name that is not itself a key of the table:
    every name starting with [gpt-4] resolves to 8192 (the entries
    [gpt-4-32k], [gpt-4-turbo], [gpt-4o], [gpt-4.1] and the like are
    reached by exact match only), every name starting with [gpt-5] to
    128000, and every name starting with [o1] or [o3] to 200000. *)
Theorem getModelContextLimit_first_prefix_shadows (model : jsstring) :
  (forall limit, (model, limit) ∉ MODEL_CONTEXT_LIMITS) ->
  (startsWith model (js "gpt-4") = true -> getModelContextLimit model = Limit 8192)
  /\ (startsWith model (js "gpt-5") = true -> getModelContextLimit model = Limit 128000)
  /\ (startsWith model (js "o1") = true -> getModelContextLimit model = Limit 200000)
  /\ (startsWith model (js "o3") = true -> getModelContextLimit model = Limit 200000).
Proof.
  intros Hnokey. pose proof (ownProperty_absent _ Hnokey) as Hown.
  unfold getModelContextLimit. rewrite Hown.
  repeat split; intros Hs; apply startsWith_prefix in Hs as [rest ->];
    rewrite bool_decide_eq_false_2
      by (apply prefix_not_prototype; repeat constructor).
  - by rewrite (firstPrefixEntry_at 0 (js "gpt-4") 8192 rest eq_refl).
  - rewrite (firstPrefixEntry_at 9 (js "gpt-5") 128000 rest eq_refl); [done|done|].
    vm_compute. repeat (constructor; [reflexivity|]). constructor.
  - rewrite (firstPrefixEntry_at 12 (js "o1") 200000 rest eq_refl); [done|done|].
    vm_compute. repeat (constructor; [reflexivity|]). constructor.
  - rewrite (firstPrefixEntry_at 16 (js "o3") 200000 rest eq_refl); [done|done|].
    vm_compute. repeat (constructor; [reflexivity|]). constructor.
Qed.

Lemma getModelContextLimit_first_prefix_shadows_witness :
  getModelContextLimit (js "gpt-4.1-mini-2025-04-14") = Limit 8192.
Proof.
  destruct (getModelContextLimit_first_prefix_shadows (js "gpt-4.1-mini-2025-04-14"))
    as (H4 & _).
  - intros limit Hin. apply list_elem_of_In in Hin. vm_compute in Hin.
    intuition discriminate.
  - apply H4. reflexivity.
Defined.
